(** * ChromaSQL: package entry points, documentation macro, and the
      query pipeline described by the specification.

    Part I  embeds [src/__init__.py] (the module body that builds the public
            name list [__all__] around an optional import).
    Part II embeds [src/docs/main.py] (the MkDocs macro [read_file]).
    Part III, IV, V model the federation engine, the planner and the router
            from the specification text, since their modules are imported by
            [__init__.py] but their sources are not part of the tree. *)

From Stdlib Require Import ZArith NArith Lia List Sorted Permutation String Ascii.
From Stdlib.Strings Require Import Byte.
From stdpp Require Import base option gmap strings list sorting.

Set Warnings "-clear-no-such-hyp,-register-all".

Local Open Scope string_scope.
Local Open Scope list_scope.

(** Membership in a list written out. *)
Ltac find_member :=
  repeat first [ apply list_elem_of_here | apply list_elem_of_further ].

(* ===================================================================== *)
(** * Part I. [src/__init__.py]: the package's module body                *)
(* ===================================================================== *)

Module PackageInit.

(** ** A small model of what a Python module body can do here *)

(** Exceptions an import can raise.  [ModuleNotFoundError] is a subclass of
    [ImportError], so [except ImportError] catches both. *)
Inductive PyExc : Type :=
| ImportError
| ModuleNotFoundError
| OtherError (name : string).

Definition is_ImportError (e : PyExc) : bool :=
  match e with
  | ImportError | ModuleNotFoundError => true
  | OtherError _ => false
  end.

(** Values bound in a module namespace: the flag, the [__all__] list, the
    docstring, opaque objects provided by other modules, and module objects. *)
Inductive PyVal : Type :=
| VBool (b : bool)
| VStr (s : string)
| VList (l : list string)
| VObject (origin qualname : string)
| VModule (name : string).

(** A sibling module either executes and exposes attributes, or raises while
    it is being imported. *)
Inductive PyModule : Type :=
| Loaded (attrs : gmap string PyVal)
| Broken (e : PyExc).

(** The importable world.  [env_modules]: module name (as written after
    [from]) to module; a name that is absent cannot be found:
    [ModuleNotFoundError].  [env_loads]: the sibling modules a module's own
    import statements load while it executes, whether or not it then runs to
    its end; the import system binds each of them in the namespace of the
    package. *)
Record ImportEnv : Type :=
  { env_modules : gmap string PyModule;
    env_loads : gmap string (list string) }.

#[global] Instance import_env_lookup : Lookup string PyModule ImportEnv :=
  fun m env => env_modules env !! m.

Abbreviation Namespace := (gmap string PyVal).

(** Module-body computations: they update the namespace and either finish or
    raise.  The namespace reached when an exception is raised is kept, as the
    bindings made before the [raise] stay in the module's [__dict__]. *)
Definition Py (A : Type) : Type := Namespace -> Namespace * (PyExc + A).

Definition ret {A} (a : A) : Py A := fun ns => (ns, inr a).
Definition raise {A} (e : PyExc) : Py A := fun ns => (ns, inl e).
Definition bind {A B} (m : Py A) (k : A -> Py B) : Py B :=
  fun ns => match m ns with
            | (ns', inl e) => (ns', inl e)
            | (ns', inr a) => k a ns'
            end.

Notation "'do' x <- m ; k" := (bind m (fun x => k))
  (at level 10, x name, m at level 100, k at level 200).
Notation "m ;; k" := (bind m (fun _ => k))
  (at level 100, k at level 200, right associativity).

(** [name = value] *)
Definition store (name : string) (v : PyVal) : Py unit :=
  fun ns => (<[name := v]> ns, inr tt).

(** Reading a global; an unbound name raises [NameError]. *)
Definition load (name : string) : Py PyVal :=
  fun ns => match ns !! name with
            | Some v => (ns, inr v)
            | None => (ns, inl (OtherError "NameError"))
            end.

(** [from m import n1, ..., nk]: the module is imported first; then each name
    is fetched and bound in turn, so names before a missing one stay bound.  A
    missing attribute raises [ImportError] ("cannot import name"). *)
Fixpoint bind_names (attrs : gmap string PyVal) (names : list string) : Py unit :=
  match names with
  | [] => ret tt
  | n :: rest =>
      match attrs !! n with
      | Some v => store n v ;; bind_names attrs rest
      | None => raise ImportError
      end
  end.

(** [.errors] is the submodule [errors] of the package. *)
Definition submodule (m : string) : string :=
  match m with
  | String "."%char rest => rest
  | _ => m
  end.

(** [try: body  except ImportError: handler] *)
Definition try_except_ImportError {A} (body handler : Py A) : Py A :=
  fun ns => match body ns with
            | (ns', inl e) => if is_ImportError e then handler ns' else (ns', inl e)
            | done => done
            end.

(** [lst.extend(more)] on the list bound to [name]. *)
Definition extend (name : string) (more : list string) : Py unit :=
  do v <- load name;
  match v with
  | VList l => store name (VList (l ++ more))
  | _ => raise (OtherError "AttributeError")
  end.

Definition truthy (v : PyVal) : bool :=
  match v with
  | VBool b => b
  | VStr s => negb (String.eqb s "")
  | VList l => negb (Nat.eqb (length l) 0)
  | VObject _ _ => true
  | VModule _ => true
  end.

(** ** The module body, statement by statement *)

Definition errors_names : list string :=
  ["ChromaSQLError"; "ChromaSQLExecutionError"; "ChromaSQLParseError";
   "ChromaSQLPlanningError"].
Definition multi_collection_names : list string :=
  ["CollectionRouter"; "AsyncCollectionProvider"; "execute_multi_collection"].
Definition adapters_names : list string :=
  ["AsyncMultiCollectionAdapter"; "MetadataFieldRouter"; "SimpleAsyncClientAdapter"].

(** lines 35-51 *)
Definition core_all : list string :=
  ["parse"; "build_plan"; "plan_to_dict"; "execute_plan"; "ExecutionResult";
   "QueryPlan"; "PlanProjectionItem";
   "ChromaSQLError"; "ChromaSQLParseError"; "ChromaSQLPlanningError";
   "ChromaSQLExecutionError";
   "extract_metadata_values"].

(** lines 56-63 *)
Definition multi_all : list string :=
  ["CollectionRouter"; "AsyncCollectionProvider"; "execute_multi_collection";
   "AsyncMultiCollectionAdapter"; "MetadataFieldRouter"; "SimpleAsyncClientAdapter"].

Definition FLAG : string := "_MULTI_COLLECTION_AVAILABLE".

(** The submodules the [try] block may bind in passing. *)
Definition optional_submodules : list string := ["multi_collection"; "adapters"].

(** lines 5-16: the unconditional imports, in source order *)
Definition core_imports : list (string * list string) :=
  [(".errors", errors_names);
   (".parser", ["parse"]);
   (".planner", ["build_plan"]);
   (".plan", ["QueryPlan"; "PlanProjectionItem"]);
   (".executor", ["execute_plan"; "ExecutionResult"]);
   (".explain", ["plan_to_dict"]);
   (".analysis", ["extract_metadata_values"])].

(** ** [from .m import ...] inside the package *)

(** The names the body itself imports or assigns. *)
Definition reserved : list string :=
  concat (map snd core_imports) ++ multi_all ++ [FLAG; "__all__"].

(** A key that names a sibling module: [.name], where [name] is not empty.
    No module of the package is called like an object the body imports or
    like a name it assigns, so such keys are not siblings. *)
Definition sibling_key (k : string) : bool :=
  match k with
  | String "."%char rest =>
      negb (String.eqb rest "") && negb (bool_decide (rest ∈ reserved))
  | _ => false
  end.

Definition is_loaded (env : ImportEnv) (k : string) : bool :=
  match env !! k with
  | Some (Loaded _) => true
  | _ => false
  end.

(** The siblings that executing [m] loads: those its import statements name
    that are siblings and do load. *)
Definition loaded_siblings (env : ImportEnv) (m : string) : list string :=
  match env !! m with
  | None => []
  | Some _ =>
      List.filter (fun k => sibling_key k && is_loaded env k)
                  (default [] (env_loads env !! m))
  end.

(** Each sibling that was loaded is bound in the package namespace. *)
Fixpoint bind_siblings (ks : list string) : Py unit :=
  match ks with
  | [] => ret tt
  | k :: rest => store (submodule k) (VModule k) ;; bind_siblings rest
  end.

(** [from m import n1, ..., nk] in [__init__.py].  The module executes
    first, and the siblings it loads on the way are bound in the package
    namespace, also when it then raises.  Once it has executed, the import
    system binds it as an attribute of its package, that is, in the
    namespace of the running [__init__]; the names asked for are fetched
    after that. *)
Definition import_from (env : ImportEnv) (m : string) (names : list string) : Py unit :=
  match env !! m with
  | None => raise ModuleNotFoundError
  | Some (Broken e) => bind_siblings (loaded_siblings env m) ;; raise e
  | Some (Loaded attrs) =>
      bind_siblings (loaded_siblings env m) ;;
      store (submodule m) (VModule m) ;;
      bind_names attrs names
  end.

Fixpoint run_imports (env : ImportEnv) (l : list (string * list string)) : Py unit :=
  match l with
  | [] => ret tt
  | (m, names) :: rest => import_from env m names ;; run_imports env rest
  end.

(** lines 19-33 *)
Definition optional_import (env : ImportEnv) : Py unit :=
  try_except_ImportError
    (import_from env ".multi_collection" multi_collection_names ;;
     import_from env ".adapters" adapters_names ;;
     store FLAG (VBool true))
    (store FLAG (VBool false)).

(** lines 35-64: the body after the [try] block; it only reads the flag. *)
Definition finish_all : Py unit :=
  store "__all__" (VList core_all) ;;
  do flag <- load FLAG;
  if truthy flag then extend "__all__" multi_all else ret tt.

(** The whole body of [__init__.py]: docstring, [from __future__ import
    annotations], the imports, the [try] block, [__all__]. *)
Definition module_body (env : ImportEnv) : Py unit :=
  store "__doc__" (VStr "Public entry points for the ChromaSQL package.") ;;
  store "annotations" (VObject "__future__" "annotations") ;;
  run_imports env core_imports ;;
  optional_import env ;;
  finish_all.

(** Importing the package runs the body in a fresh namespace (the names the
    import system sets beforehand, such as [__name__], are left out). *)
Definition import_package (env : ImportEnv) : Namespace * (PyExc + unit) :=
  module_body env ∅.

(** What [from chromasql import *] would pick up. *)
Definition exports (ns : Namespace) : list string :=
  match ns !! "__all__" with
  | Some (VList l) => l
  | _ => []
  end.

(** ** Intermediate states, named for the proofs *)

(** Namespace after [from m import names] went through. *)
Definition bound (attrs : gmap string PyVal) (names : list string)
    (ns : Namespace) : Namespace :=
  foldl (fun acc n => match attrs !! n with
                      | Some v => <[n := v]> acc
                      | None => acc
                      end) ns names.

Definition present (attrs : gmap string PyVal) (names : list string) : bool :=
  forallb (fun n => bool_decide (is_Some (attrs !! n))) names.

(** Namespace after the siblings [ks] were bound. *)
Definition with_siblings (ks : list string) (ns : Namespace) : Namespace :=
  foldl (fun acc k => <[submodule k := VModule k]> acc) ns ks.

Definition ns_before_imports : Namespace :=
  <["annotations" := VObject "__future__" "annotations"]>
    (<["__doc__" := VStr "Public entry points for the ChromaSQL package."]> ∅).

(** ** The import environment seen from outside *)

(** [from m import names] would succeed in [env]. *)
Definition provides (env : ImportEnv) (m : string) (names : list string) : bool :=
  match env !! m with
  | Some (Loaded attrs) => forallb (fun n => bool_decide (is_Some (attrs !! n))) names
  | _ => false
  end.

(** The exception [from m import names] raises in [env], if any. *)
Definition import_error (env : ImportEnv) (m : string) (names : list string) : option PyExc :=
  match env !! m with
  | None => Some ModuleNotFoundError
  | Some (Broken e) => Some e
  | Some (Loaded attrs) =>
      if forallb (fun n => bool_decide (is_Some (attrs !! n))) names then None
      else Some ImportError
  end.

Definition core_ok (env : ImportEnv) : bool :=
  forallb (fun mn => provides env mn.1 mn.2) core_imports.

(** Both optional modules import and expose their three names. *)
Definition optional_ok (env : ImportEnv) : bool :=
  provides env ".multi_collection" multi_collection_names
  && provides env ".adapters" adapters_names.

(** The exception that ends the [try] body, if one does. *)
Definition optional_error (env : ImportEnv) : option PyExc :=
  match import_error env ".multi_collection" multi_collection_names with
  | Some e => Some e
  | None => import_error env ".adapters" adapters_names
  end.

(** The module whose [from ... import] lists a name. *)
Definition owner (n : string) : option string :=
  fst <$> head (filter (fun mn : string * list string => n ∈ mn.2) core_imports).

(** The object a core name is bound to by its [from ... import]. *)
Definition core_binding (env : ImportEnv) (n : string) : option PyVal :=
  match owner n with
  | Some m =>
      match env !! m with
      | Some (Loaded attrs) => attrs !! n
      | _ => None
      end
  | None => None
  end.

(** ** Two concrete environments *)

Definition module_with (origin : string) (names : list string) : PyModule :=
  Loaded (list_to_map (map (fun n => (n, VObject origin n)) names)).

(** Modules that load no sibling on their own. *)
Definition standalone (modules : gmap string PyModule) : ImportEnv :=
  {| env_modules := modules; env_loads := ∅ |}.

Definition core_modules : gmap string PyModule :=
  list_to_map (map (fun mn : string * list string => (mn.1, module_with mn.1 mn.2))
                   core_imports).

(** Only the core modules are installed: [.multi_collection] is not found. *)
Definition env_core_only : ImportEnv := standalone core_modules.

Definition all_modules : gmap string PyModule :=
  <[".multi_collection" := module_with ".multi_collection" multi_collection_names]>
    (<[".adapters" := module_with ".adapters" adapters_names]> core_modules).

(** Everything is installed. *)
Definition env_full : ImportEnv := standalone all_modules.

(** The optional module is installed but broken in a way that is not an
    [ImportError]. *)
Definition env_broken_optional : ImportEnv :=
  standalone (<[".multi_collection" := Broken (OtherError "SyntaxError")]> core_modules).

End PackageInit.

(* ===================================================================== *)
(** * Part II. [src/docs/main.py]: the [read_file] documentation macro     *)
(* ===================================================================== *)

Module DocsMacro.

(** ** [pathlib] paths, POSIX flavour *)

(** A path's root is empty, one slash, or exactly two slashes (which POSIX
    and [pathlib] keep apart from one). *)
Inductive Root : Type := NoRoot | Root1 | Root2.

Record Path : Type := { root : Root; parts : list string }.

Definition is_slash (c : ascii) : bool := Ascii.eqb c "/"%char.

(** [s.split('/')] *)
Fixpoint segments (s : string) : list string :=
  match s with
  | EmptyString => [EmptyString]
  | String c rest =>
      if is_slash c then EmptyString :: segments rest
      else match segments rest with
           | seg :: more => String c seg :: more
           | [] => [String c EmptyString]
           end
  end.

Fixpoint leading_slashes (s : string) : nat :=
  match s with
  | String c rest => if is_slash c then S (leading_slashes rest) else 0
  | EmptyString => 0
  end.

Definition parse_root (s : string) : Root :=
  match leading_slashes s with
  | 0 => NoRoot
  | 2 => Root2
  | _ => Root1
  end.

(** Empty segments and [.] are dropped when a path is built; [..] is kept. *)
Definition keep_segment (seg : string) : bool :=
  negb (String.eqb seg "") && negb (String.eqb seg ".").

(** [Path(s)] *)
Definition parse (s : string) : Path :=
  {| root := parse_root s; parts := List.filter keep_segment (segments s) |}.

Definition is_absolute (p : Path) : bool :=
  match root p with NoRoot => false | _ => true end.

(** [p / key]: an absolute right operand replaces the left one. *)
Definition truediv (p : Path) (key : string) : Path :=
  let q := parse key in
  if is_absolute q then q
  else {| root := root p; parts := (parts p ++ parts q)%list |}.

(** [p.parent] *)
Definition parent (p : Path) : Path :=
  {| root := root p; parts := removelast (parts p) |}.

(** ** Files *)

(** [OSError_ENAMETOOLONG] is the plain [OSError] with errno 36, "File name
    too long". *)
Inductive IOExc : Type :=
| FileNotFoundError
| NotADirectoryError
| IsADirectoryError
| UnicodeDecodeError
| ValueError
| OSError_ENAMETOOLONG.

(** A string is a path as the system receives it, one character per byte.
    The longest component the system looks up, and the length from which a
    path is refused as a whole (the terminating NUL counts). *)
Definition NAME_MAX : nat := 255.
Definition PATH_MAX : nat := 4096.

(** [str(p)], the text handed to [open]. *)
Fixpoint join_parts (l : list string) : string :=
  match l with
  | [] => EmptyString
  | [seg] => seg
  | seg :: rest => seg +:+ "/" +:+ join_parts rest
  end.

Definition as_text (p : Path) : string :=
  match root p, parts p with
  | NoRoot, [] => "."
  | NoRoot, l => join_parts l
  | Root1, l => "/" +:+ join_parts l
  | Root2, l => "//" +:+ join_parts l
  end.

(** A directory tree without links, all of which the process may search and
    read; a file holds bytes. *)
Inductive Node : Type :=
| File (content : list Byte.byte)
| Dir (entries : list (string * Node)).

Record FileSystem : Type := { fs_root : Node; fs_cwd : list string }.

Fixpoint lookup_entry (name : string) (entries : list (string * Node)) : option Node :=
  match entries with
  | [] => None
  | (n, node) :: rest => if String.eqb n name then Some node else lookup_entry name rest
  end.

(** Where a walk stands: the entries entered so far, innermost first. *)
Definition current (rootn : Node) (trail : list (string * Node)) : Node :=
  match trail with
  | [] => rootn
  | (_, n) :: _ => n
  end.

(** Component-by-component resolution, as the kernel does it: every
    component, [..] included, needs a directory to be looked up in, [..]
    at the root stays at the root, and a name longer than [NAME_MAX] is
    refused by the directory it is looked up in. *)
Fixpoint walk (rootn : Node) (trail : list (string * Node)) (comps : list string)
  : IOExc + list (string * Node) :=
  match comps with
  | [] => inr trail
  | c :: rest =>
      match current rootn trail with
      | File _ => inl NotADirectoryError
      | Dir entries =>
          if String.eqb c ".." then walk rootn (tail trail) rest
          else if (NAME_MAX <? String.length c)%nat then inl OSError_ENAMETOOLONG
          else match lookup_entry c entries with
               | None => inl FileNotFoundError
               | Some n => walk rootn ((c, n) :: trail) rest
               end
      end
  end.

Fixpoint has_nul (s : string) : bool :=
  match s with
  | EmptyString => false
  | String c rest => Ascii.eqb c zero || has_nul rest
  end.

Definition components (fs : FileSystem) (p : Path) : list string :=
  ((if is_absolute p then [] else fs_cwd fs) ++ parts p)%list.

(** The node a path names, with its canonical location (names from the
    root).  A NUL in the path is refused before the system is asked; the
    system refuses a path of [PATH_MAX] bytes or more before it looks
    anything up. *)
Definition locate (fs : FileSystem) (p : Path) : IOExc + (list string * Node) :=
  if existsb has_nul (parts p) then inl ValueError
  else if (PATH_MAX <=? String.length (as_text p))%nat then inl OSError_ENAMETOOLONG
  else match walk (fs_root fs) [] (components fs p) with
       | inl e => inl e
       | inr trail => inr (rev (map fst trail), current (fs_root fs) trail)
       end.

(** [open(p, 'rb').read()] *)
Definition read_bytes (fs : FileSystem) (p : Path) : IOExc + list Byte.byte :=
  match locate fs p with
  | inl e => inl e
  | inr (_, File content) => inr content
  | inr (_, Dir _) => inl IsADirectoryError
  end.

(** ** Text decoding *)

Definition is_cont (b : N) : bool := ((0x80 <=? b) && (b <=? 0xBF))%N.
Definition in_range (lo hi b : N) : bool := ((lo <=? b) && (b <=? hi))%N.
Definition low6 (b : N) : N := N.land b 0x3F.

(** Strict UTF-8 (no overlong forms, no surrogates, nothing past U+10FFFF):
    bytes to code points, [None] where Python raises [UnicodeDecodeError]. *)
Fixpoint utf8_decode (bs : list N) : option (list N) :=
  match bs with
  | [] => Some []
  | b0 :: r0 =>
      if (b0 <? 0x80)%N then cons b0 <$> utf8_decode r0
      else if in_range 0xC2 0xDF b0 then
        match r0 with
        | b1 :: r1 =>
            if is_cont b1
            then cons (N.shiftl (N.land b0 0x1F) 6 + low6 b1)%N <$> utf8_decode r1
            else None
        | _ => None
        end
      else if in_range 0xE0 0xEF b0 then
        match r0 with
        | b1 :: b2 :: r2 =>
            if (if (b0 =? 0xE0)%N then in_range 0xA0 0xBF b1
                else if (b0 =? 0xED)%N then in_range 0x80 0x9F b1
                else is_cont b1) && is_cont b2
            then cons (N.shiftl (N.land b0 0x0F) 12 + N.shiftl (low6 b1) 6 + low6 b2)%N
                   <$> utf8_decode r2
            else None
        | _ => None
        end
      else if in_range 0xF0 0xF4 b0 then
        match r0 with
        | b1 :: b2 :: b3 :: r3 =>
            if (if (b0 =? 0xF0)%N then in_range 0x90 0xBF b1
                else if (b0 =? 0xF4)%N then in_range 0x80 0x8F b1
                else is_cont b1) && is_cont b2 && is_cont b3
            then cons (N.shiftl (N.land b0 0x07) 18 + N.shiftl (low6 b1) 12
                       + N.shiftl (low6 b2) 6 + low6 b3)%N
                   <$> utf8_decode r3
            else None
        | _ => None
        end
      else None
  end.

Definition decode (content : list Byte.byte) : option (list N) :=
  utf8_decode (map Byte.to_N content).

Definition CR : N := 13.
Definition LF : N := 10.

(** Text mode with [newline=None]: [\r\n] and a lone [\r] are read as [\n]. *)
Fixpoint universal_newlines (cps : list N) : list N :=
  match cps with
  | [] => []
  | c :: rest =>
      if (c =? CR)%N then
        LF :: match rest with
              | c' :: rest' =>
                  if (c' =? LF)%N then universal_newlines rest'
                  else universal_newlines rest
              | [] => []
              end
      else c :: universal_newlines rest
  end.

(** [p.read_text(encoding="utf-8")]: a string is its code points. *)
Definition read_text (fs : FileSystem) (p : Path) : IOExc + list N :=
  match read_bytes fs p with
  | inl e => inl e
  | inr content =>
      match decode content with
      | None => inl UnicodeDecodeError
      | Some cps => inr (universal_newlines cps)
      end
  end.

(** ** The module *)

Section MainPy.

(** [__file__] of [docs/main.py]. *)
Variable module_file : string.

(** line 7 *)
Definition DOCS_ROOT : Path := parent (parse module_file).

(** lines 14-17 *)
Definition read_file (fs : FileSystem) (relative_path : string) : IOExc + list N :=
  let file_path := truediv DOCS_ROOT relative_path in
  read_text fs file_path.

End MainPy.

(** ** Where a call reads *)

(** The file a call ends up reading: canonical location and text. *)
Definition reads (module_file : string) (fs : FileSystem) (relative_path : string)
    (loc : list string) (text : list N) : Prop :=
  (exists content,
     locate fs (truediv (DOCS_ROOT module_file) relative_path) = inr (loc, File content)) /\
  read_file module_file fs relative_path = inr text.

(** The canonical location of the docs directory. *)
Definition docs_dir (module_file : string) (fs : FileSystem) (d : list string) : Prop :=
  exists entries, locate fs (DOCS_ROOT module_file) = inr (d, Dir entries).

(** ** A concrete tree *)

Definition bytes_of (s : string) : list Byte.byte := list_byte_of_string s.

(** [/site/docs/main.py], [/site/docs/intro.md] (with a Windows line end),
    [/site/docs/bad.md] (a lone continuation byte), [/site/secret.txt] and
    [/etc/passwd]. *)
Definition sample_fs : FileSystem :=
  {| fs_root :=
       Dir [("site",
             Dir [("docs",
                   Dir [("main.py", File (bytes_of "# macros"));
                        ("intro.md",
                         File (bytes_of "Hi" ++ [Byte.x0d; Byte.x0a] ++ bytes_of "there")%list);
                        ("plain.md", File (bytes_of "plain"));
                        ("bad.md", File [Byte.x80])]);
                  ("secret.txt", File (bytes_of "key"))]);
            ("etc", Dir [("passwd", File (bytes_of "root"))])];
     fs_cwd := ["site"] |}.

Definition sample_file : string := "/site/docs/main.py".

End DocsMacro.

(* ===================================================================== *)
(** * Part III. The plan model and the federation engine                   *)
(* ===================================================================== *)

(** [__init__.py] re-exports [QueryPlan], [PlanProjectionItem],
    [ExecutionResult] and [execute_multi_collection] from [.plan],
    [.executor] and [.multi_collection]; those modules are not in the tree.
    What follows is written from sections 3, 4.5 and 5 of the specification. *)

Module Plan.

(** Modelled from the spec: the literals a comparison can name (section 6);
    [plan.py] is not in the tree. *)
Inductive Literal : Type :=
| LInt (z : Z)
| LText (s : string)
| LBool (b : bool).

(** Modelled from the spec: the comparison operators of section 6
    ([=], [!=], [<], [<=], [>], [>=]); [IN] is the node [PIn] below. *)
Inductive CmpOp : Type := OpEq | OpNe | OpLt | OpLe | OpGt | OpGe.

(** Modelled from the spec: the predicate tree of section 3, "a recursive
    tree of AND, OR, NOT, comparison(field, operator, literal),
    similarity-clause(vector-expr, top-k)"; [IN] compares against a list. *)
Inductive Predicate : Type :=
| PAnd (p q : Predicate)
| POr (p q : Predicate)
| PNot (p : Predicate)
| PCmp (field : string) (op : CmpOp) (lit : Literal)
| PIn (field : string) (lits : list Literal)
| PMatch (vector : list Z) (top_k : nat).

#[global] Instance literal_eq_dec : EqDecision Literal.
Proof. solve_decision. Defined.

(** The fields a predicate mentions, in reading order. *)
Fixpoint pred_fields (p : Predicate) : list string :=
  match p with
  | PAnd a b | POr a b => pred_fields a ++ pred_fields b
  | PNot a => pred_fields a
  | PCmp f _ _ => [f]
  | PIn f _ => [f]
  | PMatch _ _ => []
  end.

(** Modelled from the spec: what a projection item identifies (section 3). *)
Inductive ProjectionSource : Type :=
| SrcField (field : string)
| SrcId
| SrcSimilarity
| SrcVector.

(** Modelled from the spec: "identifies either a metadata field, the record
    identifier, the similarity score, or the raw vector, with an optional
    output alias". *)
Record PlanProjectionItem : Type :=
  { proj_source : ProjectionSource; proj_alias : option string }.

(** Modelled from the spec: "an optional ordering key (similarity score or
    named field, ascending/descending)". *)
Inductive OrderKey : Type := BySimilarity | ByField (field : string).
Inductive Direction : Type := Asc | Desc.

(** Modelled from the spec: the [QueryPlan] of section 3: projection items,
    resolved predicate, optional ordering key, optional limit and offset, and
    the target collections (empty: resolve via the router). *)
Record QueryPlan : Type :=
  { plan_projection : list PlanProjectionItem;
    plan_predicate : option Predicate;
    plan_order : option (OrderKey * Direction);
    plan_limit : option nat;
    plan_offset : option nat;
    plan_targets : list string }.

Definition plan_direction (p : QueryPlan) : option Direction :=
  snd <$> plan_order p.

Definition offset_of (p : QueryPlan) : nat := default 0 (plan_offset p).

End Plan.

Module Federation.
Import Plan.

(** Modelled from the spec: a result row ([multi_collection.py] and
    [executor.py] are not in the tree).  The merge needs the record
    identifier and the row's value under the plan's ordering key (similarity
    score or named field, as the per-collection executor extracted it); the
    rest is the mapping from projection alias to value.  Identifiers, scores
    and field values are taken as integers. *)
Record Row : Type :=
  { row_id : Z; row_key : Z; row_values : list (string * Literal) }.

(** Modelled from the spec: the merge order of step 5, "keyed by the plan's
    ordering key (similarity score or named field; tie-break by record
    identifier for determinism)".  Without a requested ordering only the
    tie-break is left. *)
Definition row_leb (o : option Direction) (a b : Row) : bool :=
  match o with
  | Some Asc =>
      if (row_key a <? row_key b)%Z then true
      else if (row_key b <? row_key a)%Z then false
      else (row_id a <=? row_id b)%Z
  | Some Desc =>
      if (row_key b <? row_key a)%Z then true
      else if (row_key a <? row_key b)%Z then false
      else (row_id a <=? row_id b)%Z
  | None => (row_id a <=? row_id b)%Z
  end.

Definition row_le (o : option Direction) (a b : Row) : Prop := row_leb o a b = true.

#[global] Instance row_le_dec o a b : Decision (row_le o a b).
Proof. unfold row_le. apply _. Defined.

(** Modelled from the spec: one step of the merge of step 5, two sequences
    interleaved by the merge order; the left sequence goes first on a tie. *)
Fixpoint merge2 (leb : Row -> Row -> bool) (l1 : list Row) : list Row -> list Row :=
  fix merge_into (l2 : list Row) : list Row :=
    match l1, l2 with
    | [], _ => l2
    | _, [] => l1
    | a :: l1', b :: l2' =>
        if leb a b then a :: merge2 leb l1' l2 else b :: merge_into l2'
    end.

(** Modelled from the spec: the "k-way merge" of step 5, as a chain of
    two-way merges over the sequences in the order they are handed over (the
    earliest sequence goes first on a tie). *)
Definition kway_merge (leb : Row -> Row -> bool) (seqs : list (list Row)) : list Row :=
  foldr (merge2 leb) [] seqs.

(** Modelled from the spec: "deduplicating rows sharing the same record
    identifier (first occurrence by merge order wins)". *)
Fixpoint dedup (seen : list Z) (rs : list Row) : list Row :=
  match rs with
  | [] => []
  | r :: rest =>
      if bool_decide (row_id r ∈ seen) then dedup seen rest
      else r :: dedup (row_id r :: seen) rest
  end.


(** Modelled from the spec: "then apply offset and limit globally over the
    merged, deduplicated sequence". *)
Definition paginate (p : QueryPlan) (rs : list Row) : list Row :=
  let rest := drop (offset_of p) rs in
  match plan_limit p with
  | Some n => take n rest
  | None => rest
  end.

(** Modelled from the spec: the merge keyed by the plan's ordering. *)
Definition merged (p : QueryPlan) (seqs : list (list Row)) : list Row :=
  kway_merge (row_leb (plan_direction p)) seqs.

(** Modelled from the spec: step 5 as a whole (merge, deduplicate, then
    offset and limit). *)
Definition merge_step (p : QueryPlan) (seqs : list (list Row)) : list Row :=
  paginate p (dedup [] (merged p seqs)).

(** ** Fan-out, completion and the failure policy *)

(** Modelled from the spec: what a collection's task ends with (step 3):
    the rows of the single-collection executor, or the provider's failure. *)
Inductive Outcome : Type :=
| Rows (rs : list Row)
| Failed (message : string).

(** Modelled from the spec: the configurable failure policy of step 4. *)
Inductive Policy : Type := FailFast | BestEffort.

(** Modelled from the spec: "ExecutionError (with per-collection error
    context)". *)
Record ExecutionError : Type :=
  { err_collection : string; err_message : string }.

(** Modelled from the spec: the [ExecutionResult] of section 3, rows plus a
    count and diagnostics (which collections contributed, per-collection
    errors). *)
Record ExecutionResult : Type :=
  { rows : list Row;
    count : nat;
    contributed : list string;
    diagnostics : list (string * string) }.

(** Modelled from the spec: the shared accumulator of section 5, into
    which a task's rows or error are folded by "a single
    append-on-completion step". *)
Record Accumulator : Type :=
  { acc_rows : list (string * list Row);
    acc_errors : list (string * string) }.

Definition empty_acc : Accumulator := {| acc_rows := []; acc_errors := [] |}.

(** Modelled from the spec: steps 3 and 4.  A completed task is folded into
    the accumulator; under [fail-fast] the first failure aborts the whole
    operation, under [best-effort] it is recorded and the run goes on. *)
Definition complete (policy : Policy) (acc : Accumulator) (c : string) (o : Outcome)
  : ExecutionError + Accumulator :=
  match o with
  | Rows rs =>
      inr {| acc_rows := acc_rows acc ++ [(c, rs)]; acc_errors := acc_errors acc |}
  | Failed msg =>
      match policy with
      | FailFast => inl {| err_collection := c; err_message := msg |}
      | BestEffort =>
          inr {| acc_rows := acc_rows acc; acc_errors := acc_errors acc ++ [(c, msg)] |}
      end
  end.

(** Modelled from the spec: step 3, "as each task completes, record its
    rows and, on failure, its error"; tasks complete one after the other, in
    the order given. *)
Fixpoint gather (policy : Policy) (providers : string -> Outcome)
    (acc : Accumulator) (order : list string) : ExecutionError + Accumulator :=
  match order with
  | [] => inr acc
  | c :: rest =>
      match complete policy acc c (providers c) with
      | inl e => inl e
      | inr acc' => gather policy providers acc' rest
      end
  end.

(** Modelled from the spec: what the accumulator holds for a collection,
    if its task returned rows. *)
Definition recorded (acc : Accumulator) (c : string) : option (string * list Row) :=
  List.find (fun e : string * list Row => String.eqb (fst e) c) (acc_rows acc).

(** Modelled from the spec: section 5, "the merge step is the single
    ordering authority" and completion order "must have no effect on final
    row order": the accumulator was filled in completion order, and the
    merge is handed the recorded sequences in launch order, the order of the
    routes. *)
Definition in_launch_order (routes : list string) (acc : Accumulator)
  : list (string * list Row) :=
  omap (recorded acc) routes.

(** Modelled from the spec: steps 5 and 6. *)
Definition finish (p : QueryPlan) (routes : list string) (acc : Accumulator)
  : ExecutionResult :=
  let recs := in_launch_order routes acc in
  let out := merge_step p (snd <$> recs) in
  {| rows := out;
     count := length out;
     contributed := fst <$> recs;
     diagnostics := acc_errors acc |}.

(** Modelled from the spec: section 5, launch order is the route order and
    completion order is not.  [schedule] lists positions in [routes] in the
    order the tasks complete. *)
Definition completed (routes : list string) (schedule : list nat) : list string :=
  omap (fun i => routes !! i) schedule.

(** Modelled from the spec: step 1, the plan each collection is asked to
    run: the full predicate and order, and "up to [limit + offset] rows to
    guarantee a correct global top-K without under-fetching". *)
Definition shard_plan (p : QueryPlan) : QueryPlan :=
  {| plan_projection := plan_projection p;
     plan_predicate := plan_predicate p;
     plan_order := plan_order p;
     plan_limit := (fun n => n + offset_of p) <$> plan_limit p;
     plan_offset := None;
     plan_targets := plan_targets p |}.

(** Modelled from the spec: the provider capability of section 6, seen from
    the engine: a collection and a plan give records (taken here as already
    mapped to rows and re-filtered) or a backend error. *)
Definition ProviderFactory : Type := string -> QueryPlan -> Outcome.

(** Modelled from the spec: the rows the single-collection executor of
    section 4.3 returns for what a provider handed back: in the plan's order
    (ties by record identifier) and no more than the plan's limit.  Section
    8 has it sort and bound what a mock collection returns unordered. *)
Definition ordered_rows (p : QueryPlan) (raw : list Row) : list Row :=
  paginate p (merge_sort (row_le (plan_direction p)) raw).

(** Modelled from the spec: [execute_plan(plan, provider)] of section 4.3;
    a failing provider call is the failure of the execution. *)
Definition execute_plan (p : QueryPlan) (provider : QueryPlan -> Outcome) : Outcome :=
  match provider p with
  | Rows raw => Rows (ordered_rows p raw)
  | Failed msg => Failed msg
  end.

(** Modelled from the spec: the task of one route (step 1), which "runs the
    single-collection Executor against that collection's provider" with the
    plan whose limit is [limit + offset]. *)
Definition task_outcome (factory : ProviderFactory) (p : QueryPlan) (c : string)
  : Outcome :=
  execute_plan (shard_plan p) (factory c).

(** Modelled from the spec: [execute_multi_collection(plan, provider_factory,
    routes, policy)] of section 4.5.  One task per route is launched in route
    order; [schedule] is the order in which the launched tasks complete (the
    scheduler's choice, not the caller's).  Deadlines and cancellation
    signals are outside this model. *)
Definition execute_multi_collection (p : QueryPlan) (factory : ProviderFactory)
    (routes : list string) (policy : Policy) (schedule : list nat)
  : ExecutionError + ExecutionResult :=
  match gather policy (task_outcome factory p) empty_acc (completed routes schedule) with
  | inl e => inl e
  | inr acc => inr (finish p routes acc)
  end.

(** Modelled from the spec: a completion order of a run, every launched
    task completing exactly once. *)
Definition completion_order (routes : list string) (schedule : list nat) : Prop :=
  schedule ≡ₚ seq 0 (length routes).

Definition result_rows (r : ExecutionError + ExecutionResult) : option (list Row) :=
  match r with
  | inl _ => None
  | inr res => Some (rows res)
  end.

(** The completed tasks that returned rows, and those that failed, each in
    completion order. *)
Definition successes (providers : string -> Outcome) (order : list string)
  : list (string * list Row) :=
  omap (fun c => match providers c with
                 | Rows rs => Some (c, rs)
                 | Failed _ => None
                 end) order.

Definition failures (providers : string -> Outcome) (order : list string)
  : list (string * string) :=
  omap (fun c => match providers c with
                 | Rows _ => None
                 | Failed msg => Some (c, msg)
                 end) order.

(** Rows that the merge order cannot tell apart. *)
Definition tied (o : option Direction) (a b : Row) : Prop :=
  row_le o a b /\ row_le o b a.

(** ** Sample data *)

Definition mk_row (id key : Z) : Row :=
  {| row_id := id; row_key := key; row_values := [] |}.

Definition tagged_row (id key : Z) (tag : string) : Row :=
  {| row_id := id; row_key := key; row_values := [("source", LText tag)] |}.

Definition plan_with (order : option (OrderKey * Direction))
    (limit offset : option nat) : QueryPlan :=
  {| plan_projection := [{| proj_source := SrcId; proj_alias := None |}];
     plan_predicate := None;
     plan_order := order;
     plan_limit := limit;
     plan_offset := offset;
     plan_targets := [] |}.




(** Two collections holding the same record under the same key, each
    tagging the row with its own name. *)
Definition twin_providers (c : string) (_ : QueryPlan) : Outcome :=
  if String.eqb c "a" then Rows [tagged_row 1 0 "a"]
  else if String.eqb c "b" then Rows [tagged_row 1 0 "b"]
  else Failed "unknown collection".

(** Three collections, the third of which is down; the first hands its
    records back out of order. *)
Definition flaky_providers (c : string) (_ : QueryPlan) : Outcome :=
  if String.eqb c "north" then Rows [mk_row 2 70; mk_row 1 90]
  else if String.eqb c "south" then Rows [mk_row 3 95; mk_row 4 10]
  else Failed "connection refused".

End Federation.

(* ===================================================================== *)
(** * Part IV. The planner                                                 *)
(* ===================================================================== *)

(** [build_plan] is imported from [.planner], which is not in the tree; this
    part is written from sections 3, 4.2, 6 and 7 of the specification. *)

Module Planner.
Import Plan.

(** ** The statement, as the grammar of section 6 shapes it *)

(** Modelled from the spec: an entry of the projection list, "<field> [AS
    <alias>], ID, SIMILARITY, or VECTOR" ([parser.py] and [planner.py] are
    not in the tree). *)
Inductive SelectItem : Type :=
| ItemField (field : string) (alias : option string)
| ItemId
| ItemSimilarity
| ItemVector.

(** Modelled from the spec: "<projection-list> is [*] or a comma-separated
    list". *)
Inductive ProjectionClause : Type :=
| SelectStar
| SelectItems (items : list SelectItem).

(** Modelled from the spec: the select statement of section 6.  In
    [LIMIT n [OFFSET m]] an offset only comes with a limit; both are integers
    as written, not yet checked. *)
Record Statement : Type :=
  { stmt_projection : ProjectionClause;
    stmt_from : string;
    stmt_where : option Predicate;
    stmt_order : option (OrderKey * option Direction);
    stmt_limit : option (Z * option Z) }.

(** ** The schema *)

(** Modelled from the spec: field types; the one rule the spec gives is
    that ordering comparisons need an ordinal field. *)
Inductive FieldType : Type := TNumber | TText | TBool.

(** Modelled from the spec: "schema (collection name -> known metadata
    field names/types)".  An entry also records the vector dimensionality
    "if known", and whether the name is one physical collection or a logical
    namespace spanning several. *)
Record Entry : Type :=
  { entry_fields : gmap string FieldType;
    entry_dimension : option nat;
    entry_physical : bool }.

Abbreviation Schema := (gmap string Entry).

(** Modelled from the spec: the kinds of [PlanningError] of section 7
    ("unknown field, type mismatch, invalid limit/offset, unresolved
    routing"), plus the vector check of section 4.2. *)
Inductive PlanningError : Type :=
| UnknownField (field : string)
| TypeMismatch (field : string) (op : CmpOp)
| InvalidLimit (n : Z)
| InvalidOffset (m : Z)
| DimensionMismatch (declared given : nat)
| UnresolvedRouting (name : string).

(** Modelled from the spec: "typed failures rather than generic
    exceptions" (section 9).  Planning either fails or yields a value: there
    is no partial result. *)
Definition Res (A : Type) : Type := PlanningError + A.

Definition ok {A} (a : A) : Res A := inr a.
Definition fail {A} (e : PlanningError) : Res A := inl e.
Definition and_then {A B} (m : Res A) (k : A -> Res B) : Res B :=
  match m with
  | inl e => inl e
  | inr a => k a
  end.

Notation "'do' x <- m ; k" := (and_then m (fun x => k))
  (at level 10, x name, m at level 100, k at level 200).
Notation "m ;; k" := (and_then m (fun _ => k))
  (at level 100, k at level 200, right associativity).

(** ** Field references *)

Definition item_fields (i : SelectItem) : list string :=
  match i with
  | ItemField f _ => [f]
  | _ => []
  end.

Definition clause_fields (c : ProjectionClause) : list string :=
  match c with
  | SelectStar => []
  | SelectItems items => concat (map item_fields items)
  end.

Definition key_fields (k : OrderKey) : list string :=
  match k with
  | BySimilarity => []
  | ByField f => [f]
  end.

(** Every field a statement refers to: projection, predicate, order. *)
Definition stmt_fields (st : Statement) : list string :=
  clause_fields (stmt_projection st)
  ++ from_option pred_fields [] (stmt_where st)
  ++ from_option (fun o => key_fields o.1) [] (stmt_order st).

Definition source_fields (s : ProjectionSource) : list string :=
  match s with
  | SrcField f => [f]
  | _ => []
  end.

(** Every field a plan refers to. *)
Definition plan_fields (p : QueryPlan) : list string :=
  concat (map (fun i => source_fields (proj_source i)) (plan_projection p))
  ++ from_option pred_fields [] (plan_predicate p)
  ++ from_option (fun o => key_fields o.1) [] (plan_order p).

Definition known (e : Entry) (f : string) : bool :=
  bool_decide (is_Some (entry_fields e !! f)).

(** ** Resolution *)

(** Modelled from the spec: "unresolved fields fail with a [PlanningError]
    naming the field". *)
Definition resolve_field (e : Entry) (f : string) : Res unit :=
  if known e f then ok tt else fail (UnknownField f).

(** Modelled from the spec: resolution of the projection clause. *)
Definition resolve_item (e : Entry) (i : SelectItem) : Res PlanProjectionItem :=
  match i with
  | ItemField f alias =>
      resolve_field e f ;;
      ok {| proj_source := SrcField f; proj_alias := alias |}
  | ItemId => ok {| proj_source := SrcId; proj_alias := None |}
  | ItemSimilarity => ok {| proj_source := SrcSimilarity; proj_alias := None |}
  | ItemVector => ok {| proj_source := SrcVector; proj_alias := None |}
  end.

(** The plan item a select item becomes once its field is resolved. *)
Definition plan_item (i : SelectItem) : PlanProjectionItem :=
  match i with
  | ItemField f alias => {| proj_source := SrcField f; proj_alias := alias |}
  | ItemId => {| proj_source := SrcId; proj_alias := None |}
  | ItemSimilarity => {| proj_source := SrcSimilarity; proj_alias := None |}
  | ItemVector => {| proj_source := SrcVector; proj_alias := None |}
  end.

Fixpoint resolve_items (e : Entry) (items : list SelectItem)
  : Res (list PlanProjectionItem) :=
  match items with
  | [] => ok []
  | i :: rest =>
      do i' <- resolve_item e i;
      do rest' <- resolve_items e rest;
      ok (i' :: rest')
  end.

(** Modelled from the spec: [*] in the projection list; it stands for the
    identifier and every known field. *)
Definition star (e : Entry) : list PlanProjectionItem :=
  {| proj_source := SrcId; proj_alias := None |}
  :: map (fun ft : string * FieldType =>
            {| proj_source := SrcField ft.1; proj_alias := None |})
         (map_to_list (entry_fields e)).

Definition resolve_projection (e : Entry) (c : ProjectionClause)
  : Res (list PlanProjectionItem) :=
  match c with
  | SelectStar => ok (star e)
  | SelectItems items => resolve_items e items
  end.

(** Modelled from the spec: resolution of the predicate clause, in reading
    order. *)
Fixpoint resolve_pred (e : Entry) (p : Predicate) : Res unit :=
  match p with
  | PAnd a b | POr a b => resolve_pred e a ;; resolve_pred e b
  | PNot a => resolve_pred e a
  | PCmp f _ _ => resolve_field e f
  | PIn f _ => resolve_field e f
  | PMatch _ _ => ok tt
  end.

(** Modelled from the spec: a bare [ORDER BY SIMILARITY] means best match
    first (the scenario of section 8); a bare [ORDER BY field] is taken as
    ascending. *)
Definition default_direction (k : OrderKey) : Direction :=
  match k with
  | BySimilarity => Desc
  | ByField _ => Asc
  end.

(** Modelled from the spec: resolution of the order clause. *)
Definition resolve_order (e : Entry) (o : OrderKey * option Direction)
  : Res (OrderKey * Direction) :=
  match o.1 with
  | BySimilarity => ok tt
  | ByField f => resolve_field e f
  end ;;
  ok (o.1, default (default_direction o.1) o.2).

(** ** Type checks *)

Definition ordinal (t : FieldType) : bool :=
  match t with
  | TNumber | TText => true
  | TBool => false
  end.

Definition needs_order (op : CmpOp) : bool :=
  match op with
  | OpLt | OpLe | OpGt | OpGe => true
  | OpEq | OpNe => false
  end.

(** Modelled from the spec: "reject [>] on a non-ordinal field", and
    "validate similarity-clause vectors have the declared dimensionality if
    known". *)
Fixpoint check_pred (e : Entry) (p : Predicate) : Res unit :=
  match p with
  | PAnd a b | POr a b => check_pred e a ;; check_pred e b
  | PNot a => check_pred e a
  | PCmp f op _ =>
      match entry_fields e !! f with
      | Some t => if needs_order op && negb (ordinal t)
                  then fail (TypeMismatch f op) else ok tt
      | None => fail (UnknownField f)
      end
  | PIn _ _ => ok tt
  | PMatch v _ =>
      match entry_dimension e with
      | Some d => if Nat.eqb (length v) d then ok tt
                  else fail (DimensionMismatch d (length v))
      | None => ok tt
      end
  end.

(** ** Normalisation *)

(** Modelled from the spec: "flatten nested AND/OR where safe"; nested
    conjunctions (disjunctions) become one right-leaning chain. *)
Fixpoint and_chain (x y : Predicate) : Predicate :=
  match x with
  | PAnd x1 x2 => PAnd x1 (and_chain x2 y)
  | _ => PAnd x y
  end.

Fixpoint or_chain (x y : Predicate) : Predicate :=
  match x with
  | POr x1 x2 => POr x1 (or_chain x2 y)
  | _ => POr x y
  end.

(** Modelled from the spec: "normalize predicate trees", a best-effort
    simplification.  The literals of the grammar carry no operators to fold. *)
Fixpoint normalize (p : Predicate) : Predicate :=
  match p with
  | PAnd a b => and_chain (normalize a) (normalize b)
  | POr a b => or_chain (normalize a) (normalize b)
  | PNot a => PNot (normalize a)
  | _ => p
  end.

(** ** Limits *)

(** Modelled from the spec: "validate limit/offset are non-negative
    integers". *)
Definition check_limit (l : option (Z * option Z)) : Res (option nat * option nat) :=
  match l with
  | None => ok (None, None)
  | Some (n, m) =>
      if (n <? 0)%Z then fail (InvalidLimit n)
      else match m with
           | None => ok (Some (Z.to_nat n), None)
           | Some m =>
               if (m <? 0)%Z then fail (InvalidOffset m)
               else ok (Some (Z.to_nat n), Some (Z.to_nat m))
           end
  end.

(** ** [build_plan] *)

(** Modelled from the spec: [build_plan(statement, schema)] of section 4.2.
    The responsibilities are discharged in the order the section lists
    them; the first failure is the result.  A physical collection is bound
    as the plan's target; a namespace leaves the target set empty for the
    router. *)
Definition build_plan (st : Statement) (schema : Schema) : Res QueryPlan :=
  match schema !! stmt_from st with
  | None => fail (UnresolvedRouting (stmt_from st))
  | Some e =>
      do projection <- resolve_projection e (stmt_projection st);
      from_option (resolve_pred e) (ok tt) (stmt_where st) ;;
      do order <- match stmt_order st with
                  | None => ok None
                  | Some o => do o' <- resolve_order e o; ok (Some o')
                  end;
      from_option (check_pred e) (ok tt) (stmt_where st) ;;
      do window <- check_limit (stmt_limit st);
      ok {| plan_projection := projection;
            plan_predicate := normalize <$> stmt_where st;
            plan_order := order;
            plan_limit := window.1;
            plan_offset := window.2;
            plan_targets := if entry_physical e then [stmt_from st] else [] |}
  end.

(** The first field, in reading order, that the entry does not know. *)
Definition first_unknown (e : Entry) (fields : list string) : option string :=
  List.find (fun f => negb (known e f)) fields.

(** ** A sample schema and statements *)

Definition docs_entry : Entry :=
  {| entry_fields := {[ "category" := TText; "year" := TNumber; "draft" := TBool ]};
     entry_dimension := Some 3;
     entry_physical := true |}.

Definition sample_schema : Schema := {[ "docs" := docs_entry ]}.

(** [SELECT id, category AS cat FROM docs WHERE category = 'a'
     ORDER BY SIMILARITY LIMIT 2] *)
Definition scenario_statement : Statement :=
  {| stmt_projection := SelectItems [ItemId; ItemField "category" (Some "cat")];
     stmt_from := "docs";
     stmt_where := Some (PCmp "category" OpEq (LText "a"));
     stmt_order := Some (BySimilarity, None);
     stmt_limit := Some (2%Z, None) |}.

(** [SELECT id FROM docs WHERE year > 2000 AND author = 'x'] *)
Definition unknown_author_statement : Statement :=
  {| stmt_projection := SelectItems [ItemId];
     stmt_from := "docs";
     stmt_where := Some (PAnd (PCmp "year" OpGt (LInt 2000))
                              (PCmp "author" OpEq (LText "x")));
     stmt_order := None;
     stmt_limit := None |}.

End Planner.

(* ===================================================================== *)
(** * Part V. The collection router                                        *)
(* ===================================================================== *)

(** [CollectionRouter] and [MetadataFieldRouter] are imported from
    [.multi_collection] and [.adapters], which are not in the tree; this part
    is written from section 4.4 of the specification. *)

Module Router.
Import Plan.













(** ** The scenario of section 8 *)





End Router.

(* ===================================================================== *)
(** * Part VI. Outcomes of the module body and shapes of paths             *)
(* ===================================================================== *)

Module ImportOutcome.
Import PackageInit.

(** The exception of the first [from ... import] of a list that fails, in
    source order. *)
Fixpoint first_error (env : ImportEnv) (l : list (string * list string))
  : option PyExc :=
  match l with
  | [] => None
  | (m, names) :: rest =>
      match import_error env m names with
      | Some e => Some e
      | None => first_error env rest
      end
  end.

(** Names the imports never bind. *)
Definition untouched (n : string) : Prop :=
  (n ∉ concat (map snd core_imports)) /\
  (n ∉ map (fun mn : string * list string => submodule mn.1) core_imports) /\
  (n ∉ multi_all) /\ (n ∉ optional_submodules).

(** [.multi_collection] imports and [.adapters] is missing. *)
Definition env_half_optional : ImportEnv :=
  standalone
    (<[".multi_collection" := module_with ".multi_collection" multi_collection_names]>
       core_modules).

(** [.planner] is not installed. *)
Definition env_no_planner : ImportEnv := standalone (delete ".planner" all_modules).

(** Everything is installed; [.parser] imports a helper module [.tokens] of
    its own, and [.planner] imports [.adapters] and then raises. *)
Definition env_entangled : ImportEnv :=
  {| env_modules :=
       <[".tokens" := module_with ".tokens" ["Token"]]>
         (<[".planner" := Broken (OtherError "RuntimeError")]> all_modules);
     env_loads := {[ ".parser" := [".tokens"]; ".planner" := [".adapters"] ]} |}.

(** The modules the body imports from, in source order. *)
Definition imported_modules : list string :=
  map fst core_imports ++ [".multi_collection"; ".adapters"].

(** [n] is the name of a sibling that one of the modules [ms] loads. *)
Definition loaded_by (env : ImportEnv) (ms : list string) (n : string) : Prop :=
  exists m, m ∈ ms /\ ("." +:+ n) ∈ loaded_siblings env m.

(** Between two states of the namespace, [n] kept its binding or was bound
    to the sibling module of that name, loaded by one of [ms]. *)
Definition kept_or_loaded (env : ImportEnv) (ms : list string)
    (ns ns' : Namespace) (n : string) : Prop :=
  ns' !! n = ns !! n \/
  (ns' !! n = Some (VModule ("." +:+ n)) /\ loaded_by env ms n).

End ImportOutcome.

Module PathShape.
Import DocsMacro.

Fixpoint has_slash (s : string) : bool :=
  match s with
  | EmptyString => false
  | String c rest => is_slash c || has_slash rest
  end.

(** A single file name: no slash, not empty, neither [.] nor [..]. *)
Definition plain_name (s : string) : bool :=
  negb (has_slash s) && keep_segment s && negb (String.eqb s "..").

(** A Unicode scalar value: at most U+10FFFF and not a surrogate. *)
Definition scalar_value (c : N) : Prop :=
  (c < 0x110000 /\ ~ (0xD800 <= c <= 0xDFFF))%N.

(** The text [read_text] gives for the bytes of a file. *)
Definition text_of (content : list Byte.byte) : IOExc + list N :=
  match decode content with
  | None => inl UnicodeDecodeError
  | Some cps => inr (universal_newlines cps)
  end.

Fixpoint repeat_string (n : nat) (s : string) : string :=
  match n with
  | 0 => EmptyString
  | S k => s +:+ repeat_string k s
  end.

(** A name of 256 bytes, and two paths that go up and down again before
    they name [plain.md]: one of 32 bytes, one of 4104. *)
Definition long_name : string := repeat_string 256 "a".
Definition winding_path (turns : nat) : string :=
  repeat_string turns "../docs/" +:+ "plain.md".

End PathShape.

(* ===================================================================== *)
(** * Facts about the package's module body                               *)
(* ===================================================================== *)

Section PackageInitFacts.
Import PackageInit.

Lemma bind_names_ok attrs names ns :
  present attrs names = true ->
  bind_names attrs names ns = (bound attrs names ns, inr tt).
Proof.
  revert ns. induction names as [|n rest IH]; intros ns Hp; [done|].
  cbn in Hp. apply andb_prop in Hp as [Hn Hrest].
  apply bool_decide_eq_true in Hn as [v Hv].
  cbn. rewrite Hv. unfold bind, store. cbn. by rewrite IH.
Qed.

Lemma bind_names_missing attrs names ns :
  present attrs names = false ->
  exists ns', bind_names attrs names ns = (ns', inl ImportError).
Proof.
  revert ns. induction names as [|n rest IH]; intros ns Hp; [done|].
  cbn in Hp. cbn. destruct (attrs !! n) as [v|] eqn:Hv.
  - rewrite bool_decide_eq_true_2 in Hp by eauto. cbn in Hp.
    unfold bind, store. destruct (IH (<[n:=v]> ns) Hp) as [ns' ->]. eauto.
  - unfold raise. eauto.
Qed.

(** A [from ... import] touches only the names it lists. *)
Lemma bind_names_frame attrs names ns ns' r n :
  bind_names attrs names ns = (ns', r) -> n ∉ names -> ns' !! n = ns !! n.
Proof.
  revert ns. induction names as [|m rest IH]; intros ns H Hn.
  - cbn in H. unfold ret in H. by inversion H.
  - apply not_elem_of_cons in Hn as [Hne Hrest]. cbn in H.
    destruct (attrs !! m) as [v|].
    + unfold bind, store in H. erewrite IH by eauto.
      by rewrite lookup_insert_ne.
    + unfold raise in H. by inversion H.
Qed.

Lemma bind_siblings_spec ks ns :
  bind_siblings ks ns = (with_siblings ks ns, inr tt).
Proof.
  revert ns. induction ks as [|k ks IH]; intros ns; [done|].
  cbn. unfold bind, store. by rewrite IH.
Qed.

Lemma sibling_key_shape k :
  sibling_key k = true -> k = "." +:+ submodule k /\ submodule k ∉ reserved.
Proof.
  destruct k as [|c rest]; [done|].
  destruct c as [[] [] [] [] [] [] [] []]; try done.
  cbn. intros [_ Hr]%andb_prop. split; [done|].
  apply negb_true_iff in Hr. by apply bool_decide_eq_false in Hr.
Qed.

Lemma loaded_siblings_keys env m :
  Forall (fun k => sibling_key k = true) (loaded_siblings env m).
Proof.
  unfold loaded_siblings. destruct (env !! m); [|constructor].
  apply Forall_forall. intros k Hk. apply list_elem_of_In, filter_In in Hk as [_ Hk].
  by apply andb_prop in Hk as [? _].
Qed.

Lemma loaded_siblings_loaded env m k :
  k ∈ loaded_siblings env m -> is_loaded env k = true.
Proof.
  unfold loaded_siblings. destruct (env !! m); [|by inversion 1].
  intros Hk. apply list_elem_of_In, filter_In in Hk as [_ Hk].
  by apply andb_prop in Hk as [_ ?].
Qed.

(** A name the body imports or assigns is not the name of a sibling. *)
Lemma reserved_not_loaded env m n :
  n ∈ reserved -> ("." +:+ n) ∉ loaded_siblings env m.
Proof.
  intros Hr Hin. pose proof (loaded_siblings_keys env m) as Hk.
  rewrite Forall_forall in Hk. by destruct (sibling_key_shape _ (Hk _ Hin)) as [_ []].
Qed.

Lemma with_siblings_lookup ks (ns : Namespace) n :
  Forall (fun k => sibling_key k = true) ks ->
  with_siblings ks ns !! n =
    if bool_decide (("." +:+ n) ∈ ks) then Some (VModule ("." +:+ n)) else ns !! n.
Proof.
  revert ns. induction ks as [|k ks IH]; intros ns Hks; [done|].
  apply Forall_cons in Hks as [Hk Hks]. apply sibling_key_shape in Hk as [Hk _].
  change (with_siblings (k :: ks) ns)
    with (with_siblings ks (<[submodule k := VModule k]> ns)).
  rewrite (IH _ Hks). destruct (decide (("." +:+ n) ∈ ks)) as [Hin|Hin].
  - rewrite !bool_decide_eq_true_2; [done|by right|done].
  - rewrite (bool_decide_eq_false_2 _ Hin).
    destruct (decide (k = "." +:+ n)) as [->|Hne].
    + rewrite bool_decide_eq_true_2 by by left. apply lookup_insert_eq.
    + rewrite bool_decide_eq_false_2.
      * apply lookup_insert_ne. intros Heq. apply Hne. by rewrite Hk, Heq.
      * intros [?|?]%elem_of_cons; done.
Qed.

(** What a [from ... import] leaves under a name it does not list: the
    sibling module of that name if the imported module loaded it, and the
    old binding otherwise. *)
Lemma import_from_lookup env m names ns ns' r n :
  import_from env m names ns = (ns', r) -> n ∉ names -> n <> submodule m ->
  ns' !! n = if bool_decide (("." +:+ n) ∈ loaded_siblings env m)
             then Some (VModule ("." +:+ n)) else ns !! n.
Proof.
  unfold import_from. intros H Hn Hm.
  destruct (env !! m) as [[attrs|e]|] eqn:Henv.
  - unfold bind at 1 in H. rewrite bind_siblings_spec in H. unfold bind, store in H.
    rewrite (bind_names_frame _ _ _ _ _ _ H Hn), lookup_insert_ne by done.
    apply with_siblings_lookup, loaded_siblings_keys.
  - unfold bind, raise in H. rewrite bind_siblings_spec in H. injection H as <- _.
    apply with_siblings_lookup, loaded_siblings_keys.
  - unfold raise in H. injection H as <- _.
    unfold loaded_siblings, lookup in *. rewrite Henv.
    by rewrite bool_decide_eq_false_2 by apply not_elem_of_nil.
Qed.

(** A [from ... import] touches, of the names the body imports or assigns,
    only those it lists. *)
Lemma import_from_frame env m names ns ns' r n :
  import_from env m names ns = (ns', r) -> n ∉ names -> n <> submodule m ->
  n ∈ reserved ->
  ns' !! n = ns !! n.
Proof.
  intros H Hn Hm Hr. rewrite (import_from_lookup _ _ _ _ _ _ _ H Hn Hm).
  by rewrite bool_decide_eq_false_2 by by apply reserved_not_loaded.
Qed.

(** [import_error] predicts what [import_from] does. *)
Lemma import_from_spec env m names ns :
  match import_error env m names with
  | None => exists attrs, env !! m = Some (Loaded attrs) /\
                          present attrs names = true /\
                          import_from env m names ns =
                            (bound attrs names
                               (<[submodule m := VModule m]>
                                  (with_siblings (loaded_siblings env m) ns)), inr tt)
  | Some e => exists ns', import_from env m names ns = (ns', inl e)
  end.
Proof.
  unfold import_error, import_from.
  destruct (env !! m) as [[attrs|e]|]; [| |unfold raise; eauto].
  - fold (present attrs names). unfold bind, store. rewrite bind_siblings_spec.
    destruct (present attrs names) eqn:Hp.
    + exists attrs. split_and!; [done..|]. by apply bind_names_ok.
    + by apply bind_names_missing.
  - unfold bind, raise. rewrite bind_siblings_spec. eauto.
Qed.

Lemma provides_import_error env m names :
  provides env m names = true <-> import_error env m names = None.
Proof.
  unfold provides, import_error.
  destruct (env !! m) as [[attrs|e]|]; [|done..].
  by destruct (forallb _ names).
Qed.

Lemma optional_ok_error env :
  optional_ok env = true <-> optional_error env = None.
Proof.
  unfold optional_ok, optional_error.
  rewrite andb_true_iff, !provides_import_error.
  destruct (import_error env ".multi_collection" _); naive_solver.
Qed.

Lemma bound_lookup attrs names ns n :
  n ∈ names -> present attrs names = true -> bound attrs names ns !! n = attrs !! n.
Proof.
  revert ns. induction names as [|m rest IH]; intros ns Hin Hp; [by inversion Hin|].
  cbn in Hp. apply andb_prop in Hp as [Hm Hrest].
  apply bool_decide_eq_true in Hm as [v Hv].
  unfold bound. cbn. rewrite Hv. fold (bound attrs rest (<[m:=v]> ns)).
  destruct (decide (n ∈ rest)) as [Hr|Hr]; [by apply IH|].
  apply elem_of_cons in Hin as [->|?]; [|done].
  pose proof (bind_names_ok attrs rest (<[m:=v]> ns) Hrest) as Hb.
  rewrite (bind_names_frame _ _ _ _ _ _ Hb Hr), Hv. apply lookup_insert_eq.
Qed.

Lemma run_imports_frame env l ns ns' r n :
  run_imports env l ns = (ns', r) ->
  n ∉ concat (map snd l) -> n ∉ map (fun mn => submodule mn.1) l ->
  n ∈ reserved ->
  ns' !! n = ns !! n.
Proof.
  revert ns. induction l as [|[m names] rest IH]; intros ns H Hn Hm Hr.
  - cbn in H. unfold ret in H. by inversion H.
  - cbn in H, Hn, Hm. apply not_elem_of_app in Hn as [Hn1 Hn2].
    apply not_elem_of_cons in Hm as [Hm1 Hm2].
    unfold bind in H. destruct (import_from env m names ns) as [ns1 [e|[]]] eqn:Hi.
    + inversion H; subst. eauto using import_from_frame.
    + rewrite (IH _ H Hn2 Hm2 Hr). eauto using import_from_frame.
Qed.

Lemma run_imports_ok env l ns :
  forallb (fun mn => provides env mn.1 mn.2) l = true ->
  exists ns', run_imports env l ns = (ns', inr tt).
Proof.
  revert ns. induction l as [|[m names] rest IH]; intros ns Hl; [by eexists|].
  cbn in Hl. apply andb_prop in Hl as [Hm Hrest].
  apply provides_import_error in Hm. pose proof (import_from_spec env m names ns) as Hs.
  rewrite Hm in Hs. destruct Hs as (attrs & _ & _ & Hs).
  cbn. unfold bind. rewrite Hs. apply IH, Hrest.
Qed.

Lemma run_imports_fail env l ns :
  forallb (fun mn => provides env mn.1 mn.2) l = false ->
  exists ns' e, run_imports env l ns = (ns', inl e).
Proof.
  revert ns. induction l as [|[m names] rest IH]; intros ns Hl; [done|].
  cbn in Hl. pose proof (import_from_spec env m names ns) as Hs.
  cbn. unfold bind. destruct (import_error env m names) as [e|] eqn:He.
  - destruct Hs as [ns' ->]. eauto.
  - destruct Hs as (attrs & _ & _ & ->). apply provides_import_error in He.
    rewrite He in Hl. by apply IH.
Qed.

(** After the unconditional imports every listed name is bound to the
    attribute of the module it was imported from (no later import rebinds
    it, the imported names being pairwise distinct). *)
Lemma run_imports_lookup env l ns ns' m names n :
  NoDup (concat (map snd l)) ->
  (forall x, x ∈ concat (map snd l) -> x ∉ map (fun mn => submodule mn.1) l) ->
  (forall x, x ∈ concat (map snd l) -> x ∈ reserved) ->
  run_imports env l ns = (ns', inr tt) ->
  (m, names) ∈ l -> n ∈ names ->
  exists attrs v, env !! m = Some (Loaded attrs) /\ attrs !! n = Some v /\
                  ns' !! n = Some v.
Proof.
  revert ns. induction l as [|[m0 names0] rest IH]; intros ns Hnd Hsub Hres H Hin Hn;
    [by inversion Hin|].
  cbn in Hnd, H, Hsub, Hres. apply NoDup_app in Hnd as (Hnd0 & Hdisj & Hndr).
  assert (Hsub_rest : forall x, x ∈ concat (map snd rest) ->
                        x ∉ map (fun mn => submodule mn.1) rest).
  { intros x Hx. specialize (Hsub x (proj2 (elem_of_app _ _ _) (or_intror Hx))).
    by apply not_elem_of_cons in Hsub as [_ ?]. }
  assert (Hres_rest : forall x, x ∈ concat (map snd rest) -> x ∈ reserved).
  { intros x Hx. apply Hres, elem_of_app. by right. }
  unfold bind in H. pose proof (import_from_spec env m0 names0 ns) as Hs.
  destruct (import_error env m0 names0) as [e|].
  { destruct Hs as [ns1 Hs]. rewrite Hs in H. by inversion H. }
  destruct Hs as (attrs & Henv & Hp & Hs). rewrite Hs in H.
  apply elem_of_cons in Hin as [Heq|Hin].
  - inversion Heq; subst.
    assert (is_Some (attrs !! n)) as [v Hv].
    { pose proof Hp as Hp'. unfold present in Hp'. rewrite forallb_forall in Hp'.
      apply (proj1 (bool_decide_eq_true _)), Hp'. by apply list_elem_of_In. }
    exists attrs, v. split_and!; [done..|].
    rewrite (run_imports_frame _ _ _ _ _ _ H (Hdisj _ Hn)), <- Hv.
    + by apply bound_lookup.
    + specialize (Hsub n (proj2 (elem_of_app _ _ _) (or_introl Hn))).
      by apply not_elem_of_cons in Hsub as [_ ?].
    + apply Hres, elem_of_app. by left.
  - eapply IH; eauto.
Qed.

(** The three outcomes of the [try] block, read off the environment. *)
Lemma optional_import_spec env ns :
  match optional_error env with
  | None =>
      exists ns', optional_import env ns = (<[FLAG := VBool true]> ns', inr tt) /\
                  forall n, n ∈ reserved -> n ∉ multi_all -> ns' !! n = ns !! n
  | Some e =>
      if is_ImportError e
      then exists ns', optional_import env ns = (<[FLAG := VBool false]> ns', inr tt) /\
                       forall n, n ∈ reserved -> n ∉ multi_all -> ns' !! n = ns !! n
      else exists ns', optional_import env ns = (ns', inl e)
  end.
Proof.
  unfold optional_error, optional_import, try_except_ImportError, bind, store.
  assert (Hsub : forall n, n ∈ reserved ->
                   n <> submodule ".multi_collection" /\ n <> submodule ".adapters").
  { apply Forall_forall. apply (bool_decide_unpack _). by vm_compute. }
  assert (Hnames : forall n, n ∉ multi_all ->
                     (n ∉ multi_collection_names) /\ (n ∉ adapters_names)).
  { intros n. unfold multi_all, multi_collection_names, adapters_names.
    rewrite !not_elem_of_cons. naive_solver. }
  pose proof (import_from_spec env ".multi_collection" multi_collection_names ns) as H1.
  destruct (import_error env ".multi_collection" _) as [e1|].
  { destruct H1 as [ns1 H1]. rewrite H1. destruct (is_ImportError e1); [|eauto].
    eexists; split; [done|]. intros n Hr Hn.
    eapply import_from_frame; [exact H1|..]; [by apply Hnames|by apply Hsub|done]. }
  destruct H1 as (a1 & _ & _ & H1). rewrite H1.
  set (ns1 := bound a1 multi_collection_names _) in *.
  pose proof (import_from_spec env ".adapters" adapters_names ns1) as H2.
  assert (Hfr : forall ns2 r n, import_from env ".adapters" adapters_names ns1 = (ns2, r) ->
                            n ∈ reserved -> n ∉ multi_all -> ns2 !! n = ns !! n).
  { intros ns2 r n Hi Hr Hn.
    rewrite (import_from_frame _ _ _ _ _ _ _ Hi);
      [|by apply Hnames|by apply Hsub|done].
    eapply import_from_frame; [exact H1|..]; [by apply Hnames|by apply Hsub|done]. }
  destruct (import_error env ".adapters" _) as [e2|].
  - destruct H2 as [ns2 H2]. rewrite H2. destruct (is_ImportError e2); eauto.
  - destruct H2 as (a2 & _ & _ & H2). rewrite H2. eauto.
Qed.

Lemma finish_all_flag b ns :
  finish_all (<[FLAG := VBool b]> ns) =
    (<["__all__" := VList (core_all ++ (if b then multi_all else []))]>
       (<[FLAG := VBool b]> ns), inr tt).
Proof.
  unfold finish_all, bind, store, load, FLAG.
  rewrite lookup_insert_ne by done. rewrite lookup_insert_eq. cbn.
  destruct b; cbn.
  - unfold extend, bind, load, store. rewrite lookup_insert_eq.
    by rewrite insert_insert_eq.
  - unfold ret. by rewrite ?app_nil_r.
Qed.

Lemma import_package_unfold env :
  import_package env =
    match run_imports env core_imports ns_before_imports with
    | (ns1, inl e) => (ns1, inl e)
    | (ns1, inr _) =>
        match optional_import env ns1 with
        | (ns2, inl e) => (ns2, inl e)
        | (ns2, inr _) => finish_all ns2
        end
    end.
Proof. reflexivity. Qed.

(** How [import_package] ends, by cases on the environment. *)
Lemma import_package_cases env :
  if core_ok env then
    match optional_error env with
    | Some e =>
        if is_ImportError e
        then exists ns', import_package env =
               (<["__all__" := VList core_all]> (<[FLAG := VBool false]> ns'), inr tt) /\
               forall n, n ∈ core_all ->
                 is_Some (ns' !! n) /\ ns' !! n = core_binding env n
        else exists ns', import_package env = (ns', inl e)
    | None =>
        exists ns', import_package env =
          (<["__all__" := VList (core_all ++ multi_all)]> (<[FLAG := VBool true]> ns'), inr tt) /\
          forall n, n ∈ core_all ->
            is_Some (ns' !! n) /\ ns' !! n = core_binding env n
    end
  else exists ns' e, import_package env = (ns', inl e).
Proof.
  rewrite import_package_unfold. set (ns0 := ns_before_imports).
  destruct (core_ok env) eqn:Hcore.
  2:{ destruct (run_imports_fail env core_imports ns0 Hcore) as (ns1 & e & ->). eauto. }
  destruct (run_imports_ok env core_imports ns0 Hcore) as [ns1 Hrun]. rewrite Hrun.
  assert (Hcoreb : forall ns2 : Namespace,
                     (forall n, n ∈ reserved -> n ∉ multi_all -> ns2 !! n = ns1 !! n) ->
                     forall n, n ∈ core_all ->
                       is_Some (ns2 !! n) /\ ns2 !! n = core_binding env n).
  { intros ns2 Hfr n Hn. rewrite Hfr.
    2:{ revert n Hn. apply Forall_forall. apply (bool_decide_unpack _). by vm_compute. }
    2:{ intros Hm. revert Hn Hm. unfold core_all, multi_all.
        rewrite !elem_of_cons, !elem_of_nil. naive_solver. }
    assert (Hnd : NoDup (concat (map snd core_imports))).
    { apply (bool_decide_unpack _). by vm_compute. }
    assert (Hsub : forall x, x ∈ concat (map snd core_imports) ->
                     x ∉ map (fun mn => submodule mn.1) core_imports).
    { apply Forall_forall. apply (bool_decide_unpack _). by vm_compute. }
    assert (Hres : forall x, x ∈ concat (map snd core_imports) -> x ∈ reserved).
    { intros x Hx. unfold reserved. apply elem_of_app. by left. }
    assert (Hown : exists m names, (m, names) ∈ core_imports /\ n ∈ names /\
              core_binding env n = match env !! m with
                                   | Some (Loaded attrs) => attrs !! n
                                   | _ => None
                                   end).
    { revert Hn. unfold core_all. rewrite !elem_of_cons, elem_of_nil.
      intros Hn. repeat (destruct Hn as [->|Hn]); [..|done];
        unfold core_binding;
        match goal with
        | |- context [owner ?n] =>
            let o := eval vm_compute in (owner n) in change (owner n) with o
        end;
        (eexists _, _; split; [|split]; [| |reflexivity]; find_member). }
    destruct Hown as (m & names & Hin & Hn' & ->).
    destruct (run_imports_lookup _ _ _ _ _ _ _ Hnd Hsub Hres Hrun Hin Hn')
      as (attrs & v & -> & -> & ->).
    eauto. }
  pose proof (optional_import_spec env ns1) as Hopt.
  destruct (optional_error env) as [e|].
  - destruct (is_ImportError e).
    + destruct Hopt as (ns2 & -> & Hfr). rewrite (finish_all_flag false). cbn [app].
      rewrite ?app_nil_r. eauto.
    + destruct Hopt as (ns2 & ->). eauto.
  - destruct Hopt as (ns2 & -> & Hfr). rewrite (finish_all_flag true). eauto.
Qed.

Lemma core_multi_disjoint n : n ∈ core_all -> n ∈ multi_all -> False.
Proof.
  unfold core_all, multi_all. rewrite !elem_of_cons, !elem_of_nil. naive_solver.
Qed.

Lemma core_not_special n : n ∈ core_all -> n <> "__all__" /\ n <> FLAG.
Proof.
  unfold core_all, FLAG. rewrite !elem_of_cons, !elem_of_nil. naive_solver.
Qed.

(** C8. When the package imports, the flag [_MULTI_COLLECTION_AVAILABLE] holds
    exactly whether both optional [from ... import] statements went through,
    [__all__] is the core list followed by the six multi-collection names when
    it is true and the core list alone when it is false, and so each of the six
    names is listed if and only if the optional imports succeeded.  The flag
    is a value computed once by the module body; [__all__] is decided by
    reading it. *)
Theorem multi_exports_iff_available (env : ImportEnv) (ns : Namespace) :
  import_package env = (ns, inr tt) ->
  ns !! FLAG = Some (VBool (optional_ok env)) /\
  exports ns = (core_all ++ (if optional_ok env then multi_all else []))%list /\
  (forall n, n ∈ multi_all -> (n ∈ exports ns <-> optional_ok env = true)).
Proof.
  intros Hrun. pose proof (import_package_cases env) as Hc.
  pose proof (optional_ok_error env) as Hok.
  destruct (core_ok env).
  2:{ destruct Hc as (? & ? & Hc). congruence. }
  destruct (optional_error env) as [e|].
  - assert (optional_ok env = false) as ->.
    { destruct (optional_ok env); [|done]. by destruct Hok as [Hok _]; specialize (Hok eq_refl). }
    destruct (is_ImportError e); [|destruct Hc as (? & Hc); congruence].
    destruct Hc as (ns' & Hc & _). rewrite Hc in Hrun. injection Hrun as <-.
    unfold exports, FLAG. rewrite lookup_insert_eq, lookup_insert_ne by done.
    rewrite lookup_insert_eq, app_nil_r. split_and!; [done..|].
    intros n Hn. split; [|done]. intros Hcore. by destruct (core_multi_disjoint n).
  - assert (optional_ok env = true) as -> by by apply Hok.
    destruct Hc as (ns' & Hc & _). rewrite Hc in Hrun. injection Hrun as <-.
    unfold exports, FLAG. rewrite lookup_insert_eq, lookup_insert_ne by done.
    rewrite lookup_insert_eq. split_and!; [done..|].
    intros n Hn. split; [done|]. intros _.
    apply (proj2 (elem_of_app core_all multi_all n)). by right.
Qed.

Lemma multi_exports_iff_available_witness :
  (import_package env_full).1 !! FLAG = Some (VBool (optional_ok env_full)) /\
  exports (import_package env_full).1 =
    (core_all ++ (if optional_ok env_full then multi_all else []))%list /\
  (forall n, n ∈ multi_all ->
     (n ∈ exports (import_package env_full).1 <-> optional_ok env_full = true)).
Proof.
  apply (multi_exports_iff_available env_full).
  rewrite (surjective_pairing (import_package env_full)) at 1.
  f_equal; by vm_compute.
Defined.

(** C9 (amended: the core names are twelve, not eleven).  If the unconditional
    imports succeed and the [try] block ends in an [ImportError] (or its
    subclass [ModuleNotFoundError]), the package import succeeds, the flag is
    [False], [__all__] is exactly the twelve-name core list in source order,
    and every core name is still bound to the object its own [from ... import]
    fetched. *)
Theorem core_exports_survive_failed_import (env : ImportEnv) (e : PyExc) :
  core_ok env = true ->
  optional_error env = Some e ->
  is_ImportError e = true ->
  exists ns,
    import_package env = (ns, inr tt) /\
    ns !! FLAG = Some (VBool false) /\
    exports ns = core_all /\
    length (exports ns) = 12 /\
    (forall n, n ∈ multi_all -> n ∉ exports ns) /\
    (forall n, n ∈ core_all -> is_Some (ns !! n) /\ ns !! n = core_binding env n).
Proof.
  intros Hcore Herr Hie. pose proof (import_package_cases env) as Hc.
  rewrite Hcore, Herr, Hie in Hc. destruct Hc as (ns' & Hc & Hb).
  eexists. split; [exact Hc|].
  unfold exports, FLAG. rewrite lookup_insert_eq, lookup_insert_ne by done.
  rewrite lookup_insert_eq. split_and!; [done..| |].
  - intros n Hn Hcn. by destruct (core_multi_disjoint n).
  - intros n Hn. destruct (core_not_special n Hn) as [H1 H2].
    rewrite !lookup_insert_ne by done. by apply Hb.
Qed.

Lemma core_exports_survive_failed_import_witness :
  exists ns,
    import_package env_core_only = (ns, inr tt) /\
    ns !! FLAG = Some (VBool false) /\
    exports ns = core_all /\
    length (exports ns) = 12 /\
    (forall n, n ∈ multi_all -> n ∉ exports ns) /\
    (forall n, n ∈ core_all ->
       is_Some (ns !! n) /\ ns !! n = core_binding env_core_only n).
Proof.
  apply (core_exports_survive_failed_import env_core_only ModuleNotFoundError);
    by vm_compute.
Defined.

(** C9 as worded speaks of eleven core names; with [.multi_collection] absent
    the package imports and [__all__] holds the twelve names the claim itself
    enumerates. *)
Lemma core_names_are_twelve_not_eleven :
  exists ns,
    import_package env_core_only = (ns, inr tt) /\
    exports ns =
      ["parse"; "build_plan"; "plan_to_dict"; "execute_plan"; "ExecutionResult";
       "QueryPlan"; "PlanProjectionItem"; "ChromaSQLError"; "ChromaSQLParseError";
       "ChromaSQLPlanningError"; "ChromaSQLExecutionError";
       "extract_metadata_values"] /\
    NoDup (exports ns) /\
    length (exports ns) <> 11.
Proof.
  exists (import_package env_core_only).1. split_and!.
  - rewrite (surjective_pairing (import_package env_core_only)) at 1.
    f_equal; by vm_compute.
  - by vm_compute.
  - apply (bool_decide_unpack _). by vm_compute.
  - by vm_compute.
Qed.

(** An exception other than [ImportError] in the [try] block is not caught:
    the package import fails with it, before [__all__] is bound. *)
Example broken_optional_module_propagates :
  (import_package env_broken_optional).2 = inl (OtherError "SyntaxError") /\
  (import_package env_broken_optional).1 !! "__all__" = None.
Proof. split; by vm_compute. Qed.

End PackageInitFacts.

(* ===================================================================== *)
(** * Facts about the documentation macro                                 *)
(* ===================================================================== *)

Section DocsMacroFacts.
Import DocsMacro.

Lemma leading_slash_absolute (rest : string) :
  is_absolute (parse (String "/"%char rest)) = true.
Proof.
  unfold is_absolute, parse, parse_root. cbn.
  by destruct (leading_slashes rest) as [|[|?]].
Qed.

Lemma truediv_absolute (p : Path) (key : string) :
  is_absolute (parse key) = true -> truediv p key = parse key.
Proof. unfold truediv. by intros ->. Qed.

Lemma truediv_relative (p : Path) (key : string) :
  is_absolute (parse key) = false ->
  truediv p key = {| root := root p; parts := parts p ++ parts (parse key) |}.
Proof. unfold truediv. by intros ->. Qed.

(** A leading [../] survives parsing: nothing normalises it away. *)
Lemma parse_dotdot (s : string) :
  parse ("../" +:+ s) = {| root := NoRoot; parts := ".." :: parts (parse s) |}.
Proof.
  change ("../" +:+ s) with (String "."%char (String "."%char (String "/"%char s))).
  unfold parse. cbn. by destruct (segments s).
Qed.

Lemma truediv_dotdot (p : Path) (s : string) :
  truediv p ("../" +:+ s) =
    {| root := root p; parts := parts p ++ ".." :: parts (parse s) |}.
Proof.
  rewrite truediv_relative; by rewrite parse_dotdot.
Qed.

Lemma universal_newlines_no_CR (cps : list N) :
  CR ∉ cps -> universal_newlines cps = cps.
Proof.
  induction cps as [|c rest IH]; [done|].
  intros [Hc Hrest]%not_elem_of_cons. cbn.
  destruct (N.eqb_spec c CR) as [->|_]; [done|]. by rewrite IH.
Qed.

Lemma walk_app (rootn : Node) (trail : list (string * Node)) (a b : list string) :
  walk rootn trail (a ++ b) =
    match walk rootn trail a with
    | inl e => inl e
    | inr trail' => walk rootn trail' b
    end.
Proof.
  revert trail. induction a as [|c a IH]; intros trail; [done|].
  cbn [app walk]. destruct (current rootn trail) as [|entries]; [done|].
  destruct (String.eqb c ".."); [apply IH|].
  destruct ((NAME_MAX <? String.length c)%nat); [done|].
  destruct (lookup_entry c entries); [apply IH|done].
Qed.

(** Where the docs directory resolves to a directory, a leading [../]
    resumes the walk from its parent: the rest of the path is looked up
    outside the docs directory. *)
Lemma walk_dotdot_escapes (module_file : string) (fs : FileSystem) (s : string)
    (name : string) (entries : list (string * Node)) (above : list (string * Node)) :
  walk (fs_root fs) [] (components fs (DOCS_ROOT module_file))
    = inr ((name, Dir entries) :: above) ->
  walk (fs_root fs) []
       (components fs (truediv (DOCS_ROOT module_file) ("../" +:+ s)))
    = walk (fs_root fs) above (parts (parse s)).
Proof.
  intros Hdocs. rewrite truediv_dotdot. unfold components in *.
  set (docs := DOCS_ROOT module_file) in *.
  change (is_absolute {| root := root docs;
                         parts := parts docs ++ ".." :: parts (parse s) |})
    with (is_absolute docs).
  cbn [parts]. rewrite app_assoc, walk_app, Hdocs.
  cbn [walk current tail]. by rewrite String.eqb_refl.
Qed.

(** What [read_file] returns, by cases on the bytes found at the joined path. *)
Lemma read_file_cases (module_file : string) (fs : FileSystem) (relative_path : string) :
  let file_path := truediv (DOCS_ROOT module_file) relative_path in
  match read_bytes fs file_path with
  | inl e => read_file module_file fs relative_path = inl e
  | inr content =>
      match decode content with
      | None => read_file module_file fs relative_path = inl UnicodeDecodeError
      | Some cps =>
          read_file module_file fs relative_path = inr (universal_newlines cps) /\
          (CR ∉ cps -> read_file module_file fs relative_path = inr cps)
      end
  end.
Proof.
  unfold read_file, read_text. cbv zeta.
  destruct (read_bytes fs _) as [e|content]; [done|].
  destruct (decode content) as [cps|]; [|done].
  split; [done|]. intros Hcr. by rewrite universal_newlines_no_CR.
Qed.

(** C10 (amended: the text is returned after universal-newline translation).
    For every [relative_path], [read_file] reads the file at
    [DOCS_ROOT / relative_path]: it returns the UTF-8 decoding of its bytes
    with [\r\n] and [\r] read as [\n] (so exactly the decoded text when
    that holds no carriage return), raises what opening the path raises, and
    raises [UnicodeDecodeError] on bytes that are not UTF-8; there is no
    default.  The join is unchecked: an absolute [relative_path] replaces
    [DOCS_ROOT], a leading [../] is kept in the joined path and takes the
    lookup to the parent of the docs directory, and in the sample tree both
    read files located outside the docs directory. *)
Theorem read_file_unchecked_join :
  (forall module_file fs relative_path,
     match read_bytes fs (truediv (DOCS_ROOT module_file) relative_path) with
     | inl e => read_file module_file fs relative_path = inl e
     | inr content =>
         match decode content with
         | None => read_file module_file fs relative_path = inl UnicodeDecodeError
         | Some cps =>
             read_file module_file fs relative_path = inr (universal_newlines cps) /\
             (CR ∉ cps -> read_file module_file fs relative_path = inr cps)
         end
     end) /\
  (forall module_file rest,
     truediv (DOCS_ROOT module_file) (String "/"%char rest) = parse (String "/"%char rest)) /\
  (forall module_file s,
     truediv (DOCS_ROOT module_file) ("../" +:+ s) =
       {| root := root (DOCS_ROOT module_file);
          parts := parts (DOCS_ROOT module_file) ++ ".." :: parts (parse s) |}) /\
  (forall module_file fs s name entries above,
     walk (fs_root fs) [] (components fs (DOCS_ROOT module_file))
       = inr ((name, Dir entries) :: above) ->
     walk (fs_root fs) []
          (components fs (truediv (DOCS_ROOT module_file) ("../" +:+ s)))
       = walk (fs_root fs) above (parts (parse s))) /\
  (exists d loc text,
     docs_dir sample_file sample_fs d /\
     reads sample_file sample_fs "../secret.txt" loc text /\
     ~ d `prefix_of` loc) /\
  (exists d loc text,
     docs_dir sample_file sample_fs d /\
     reads sample_file sample_fs "/etc/passwd" loc text /\
     ~ d `prefix_of` loc) /\
  read_file sample_file sample_fs "missing.md" = inl FileNotFoundError /\
  read_file sample_file sample_fs "bad.md" = inl UnicodeDecodeError.
Proof.
  split_and!.
  - intros. apply read_file_cases.
  - intros. apply truediv_absolute, leading_slash_absolute.
  - intros. apply truediv_dotdot.
  - intros. by eapply walk_dotdot_escapes.
  - exists ["site"; "docs"], ["site"; "secret.txt"], [107; 101; 121]%N.
    split_and!.
    + eexists. by vm_compute.
    + split; [eexists|]; by vm_compute.
    + apply (bool_decide_unpack _). by vm_compute.
  - exists ["site"; "docs"], ["etc"; "passwd"], [114; 111; 111; 116]%N.
    split_and!.
    + eexists. by vm_compute.
    + split; [eexists|]; by vm_compute.
    + apply (bool_decide_unpack _). by vm_compute.
  - by vm_compute.
  - by vm_compute.
Qed.

(** C10 as worded ("exactly the UTF-8 decoded text"): [intro.md] holds
    [Hi\r\nthere]; its decoding keeps the carriage return, the text returned
    does not. *)
Lemma read_file_is_not_the_decoded_text :
  exists content cps,
    read_bytes sample_fs (truediv (DOCS_ROOT sample_file) "intro.md") = inr content /\
    decode content = Some cps /\
    read_file sample_file sample_fs "intro.md" <> inr cps.
Proof.
  eexists _, _. split_and!; [by vm_compute..|]. by vm_compute.
Qed.

End DocsMacroFacts.

(* ===================================================================== *)
(** * Facts about the federation engine                                   *)
(* ===================================================================== *)

Section MergeFacts.
Import Plan Federation.

Variable o : option Direction.

Lemma row_leb_total (a b : Row) : row_leb o a b = true \/ row_leb o b a = true.
Proof.
  unfold row_leb. destruct o as [[]|];
    repeat match goal with
           | |- context [(?x <? ?y)%Z] => destruct (Z.ltb_spec x y)
           | |- context [(?x <=? ?y)%Z] => destruct (Z.leb_spec x y)
           end; auto; lia.
Qed.

Lemma row_leb_trans (a b c : Row) :
  row_leb o a b = true -> row_leb o b c = true -> row_leb o a c = true.
Proof.
  unfold row_leb. destruct o as [[]|];
    repeat match goal with
           | |- context [(?x <? ?y)%Z] => destruct (Z.ltb_spec x y)
           | |- context [(?x <=? ?y)%Z] => destruct (Z.leb_spec x y)
           end; auto; try lia; try discriminate.
Qed.

Lemma row_leb_false (a b : Row) : row_leb o a b = false -> row_leb o b a = true.
Proof. destruct (row_leb_total a b); congruence. Qed.

Lemma row_le_trans : Transitive (row_le o).
Proof. intros a b c. apply row_leb_trans. Qed.


Lemma merge2_cons (leb : Row -> Row -> bool) a l1 b l2 :
  merge2 leb (a :: l1) (b :: l2) =
    if leb a b then a :: merge2 leb l1 (b :: l2) else b :: merge2 leb (a :: l1) l2.
Proof. done. Qed.

Lemma merge2_nil_r (leb : Row -> Row -> bool) l : merge2 leb l [] = l.
Proof. by destruct l. Qed.

Lemma merge2_perm (leb : Row -> Row -> bool) l1 l2 : merge2 leb l1 l2 ≡ₚ l1 ++ l2.
Proof.
  revert l2. induction l1 as [|a l1 IH1]; intros l2; [by destruct l2|].
  induction l2 as [|b l2 IH2]; [by rewrite merge2_nil_r, app_nil_r|].
  rewrite merge2_cons. destruct (leb a b).
  - by rewrite IH1.
  - rewrite IH2. by rewrite <- Permutation_middle.
Qed.

Lemma merge2_sorted l1 l2 :
  StronglySorted (row_le o) l1 -> StronglySorted (row_le o) l2 ->
  StronglySorted (row_le o) (merge2 (row_leb o) l1 l2).
Proof.
  intros H1. revert l2. induction H1 as [|a l1 Hs1 IH1 Ha]; intros l2 H2;
    [by destruct l2|].
  induction H2 as [|b l2 Hs2 IH2 Hb]; [rewrite merge2_nil_r; by constructor|].
  rewrite merge2_cons. destruct (row_leb o a b) eqn:Hab.
  - constructor; [apply IH1; by constructor|].
    rewrite merge2_perm. apply Forall_app. split; [done|].
    constructor; [done|]. eapply Forall_impl; [exact Hb|].
    intros c Hbc. by apply (row_leb_trans a b c).
  - apply row_leb_false in Hab. constructor; [done|].
    rewrite merge2_perm. apply Forall_app. split; [|done].
    constructor; [done|]. eapply Forall_impl; [exact Ha|].
    intros c Hac. by apply (row_leb_trans b a c).
Qed.

Lemma kway_merge_perm (leb : Row -> Row -> bool) seqs :
  kway_merge leb seqs ≡ₚ concat seqs.
Proof.
  induction seqs as [|l seqs IH]; [done|].
  cbn. by rewrite merge2_perm, IH.
Qed.

Lemma kway_merge_sorted seqs :
  Forall (StronglySorted (row_le o)) seqs ->
  StronglySorted (row_le o) (kway_merge (row_leb o) seqs).
Proof.
  induction 1 as [|l seqs Hl _ IH]; [constructor|].
  cbn. by apply merge2_sorted.
Qed.



End MergeFacts.

Section DedupFacts.
Import Plan Federation.

Lemma dedup_sublist seen l : dedup seen l `sublist_of` l.
Proof.
  revert seen. induction l as [|r l IH]; intros seen; [done|].
  cbn. case_bool_decide; [apply sublist_cons|apply sublist_skip]; apply IH.
Qed.




(** No identifier is lost: every input row has a kept row with its
    identifier. *)
Lemma dedup_covers seen l x :
  x ∈ l -> row_id x ∉ seen -> exists r, r ∈ dedup seen l /\ row_id r = row_id x.
Proof.
  revert seen. induction l as [|y l IH]; intros seen; [by inversion 1|].
  intros [->|Hx]%elem_of_cons Hseen; cbn.
  - rewrite bool_decide_eq_false_2 by done. exists y. split; [by left|done].
  - case_bool_decide as Hy; [by apply IH|].
    destruct (decide (row_id x = row_id y)) as [Heq|Hne].
    + exists y. split; [by left|done].
    + destruct (IH (row_id y :: seen) Hx) as (r & Hr & Hid).
      { apply not_elem_of_cons. done. }
      exists r. split; [by right|done].
Qed.

Lemma paginate_sublist p l : paginate p l `sublist_of` l.
Proof.
  unfold paginate. destruct (plan_limit p).
  - etrans; [apply sublist_take|apply sublist_drop].
  - apply sublist_drop.
Qed.





Lemma merge_step_sublist p seqs : merge_step p seqs `sublist_of` merged p seqs.
Proof. unfold merge_step. etrans; [apply paginate_sublist|apply dedup_sublist]. Qed.


(** Every output row was returned by some collection. *)
Lemma merge_step_from_inputs p seqs r : r ∈ merge_step p seqs -> r ∈ concat seqs.
Proof.
  intros Hr. eapply elem_of_sublist in Hr; [|apply merge_step_sublist].
  unfold merged in Hr. by rewrite kway_merge_perm in Hr.
Qed.

(** Every identifier returned by some collection survives deduplication. *)
Lemma dedup_merged_covers p seqs x :
  x ∈ concat seqs -> exists r, r ∈ dedup [] (merged p seqs) /\ row_id r = row_id x.
Proof.
  intros Hx. apply dedup_covers; [|by apply not_elem_of_nil].
  unfold merged. by rewrite kway_merge_perm.
Qed.

End DedupFacts.

Section MergeStep.
Import Plan Federation.



End MergeStep.

Section EngineFacts.
Import Plan Federation.

Variable providers : string -> Outcome.

Lemma gather_best_effort acc order :
  gather BestEffort providers acc order =
    inr {| acc_rows := acc_rows acc ++ successes providers order;
           acc_errors := acc_errors acc ++ failures providers order |}.
Proof.
  revert acc. induction order as [|c order IH]; intros acc.
  - cbn. rewrite !app_nil_r. by destruct acc.
  - cbn. unfold complete. destruct (providers c) as [rs|msg];
      rewrite IH; cbn; by rewrite <- app_assoc.
Qed.

Lemma gather_fail_fast acc order :
  gather FailFast providers acc order =
    match failures providers order with
    | [] => inr {| acc_rows := acc_rows acc ++ successes providers order;
                   acc_errors := acc_errors acc |}
    | (c, msg) :: _ => inl {| err_collection := c; err_message := msg |}
    end.
Proof.
  revert acc. induction order as [|c order IH]; intros acc.
  - cbn. rewrite !app_nil_r. by destruct acc.
  - cbn. unfold complete. destruct (providers c) as [rs|msg]; [|done].
    rewrite IH. cbn. fold (failures providers order) (successes providers order).
    destruct (failures providers order) as [|[??]?]; [|done].
    by rewrite <- app_assoc.
Qed.

Lemma omap_lookup_seq (routes : list string) :
  omap (fun i => routes !! i) (seq 0 (length routes)) = routes.
Proof.
  induction routes as [|c routes IH]; [done|].
  cbn [length seq]. rewrite <- fmap_S_seq. cbn.
  f_equal. etrans; [|exact IH]. clear IH.
  generalize (seq 0 (length routes)). intros l.
  induction l as [|i l IHl]; [done|]. cbn. by rewrite IHl.
Qed.

(** Whatever the completion order, the completed tasks are the launched
    ones. *)
Lemma completed_perm routes schedule :
  completion_order routes schedule -> completed routes schedule ≡ₚ routes.
Proof.
  unfold completion_order, completed. intros ->. by rewrite omap_lookup_seq.
Qed.

Lemma concat_perm (l1 l2 : list (list Row)) : l1 ≡ₚ l2 -> concat l1 ≡ₚ concat l2.
Proof.
  induction 1 as [|x l1 l2 _ IH|x y l|l1 l2 l3 _ IH1 _ IH2]; cbn.
  - done.
  - by rewrite IH.
  - rewrite !app_assoc. f_equiv. apply Permutation_app_comm.
  - by etrans.
Qed.

Lemma elem_of_successes c rs order :
  (c, rs) ∈ successes providers order <-> c ∈ order /\ providers c = Rows rs.
Proof.
  unfold successes. rewrite list_elem_of_omap. split.
  - intros (c' & Hc & Hp). destruct (providers c') as [rs'|] eqn:E; [|done].
    by simplify_eq.
  - intros [Hc Hp]. exists c. by rewrite Hp.
Qed.

Lemma elem_of_failures c msg order :
  (c, msg) ∈ failures providers order <-> c ∈ order /\ providers c = Failed msg.
Proof.
  unfold failures. rewrite list_elem_of_omap. split.
  - intros (c' & Hc & Hp). destruct (providers c') as [|msg'] eqn:E; [done|].
    by simplify_eq.
  - intros [Hc Hp]. exists c. by rewrite Hp.
Qed.

(** With sorted inputs whose ties are equal rows, the merge does not depend
    on the order in which the sequences were recorded. *)
Lemma merged_order_irrelevant (p : QueryPlan) (l1 l2 : list (list Row)) :
  l1 ≡ₚ l2 ->
  Forall (Sorted (row_le (plan_direction p))) l1 ->
  (forall a b, a ∈ concat l1 -> b ∈ concat l1 -> tied (plan_direction p) a b -> a = b) ->
  merged p l1 = merged p l2.
Proof.
  intros Hperm Hsorted Hties. unfold merged.
  set (o := plan_direction p) in *.
  assert (Hss : forall l, Forall (Sorted (row_le o)) l ->
                          Forall (StronglySorted (row_le o)) l).
  { intros l Hl. eapply Forall_impl; [exact Hl|]. intros k.
    apply Sorted_StronglySorted, row_le_trans. }
  apply (StronglySorted_unique_strong (row_le o)).
  - intros a b Ha Hb Hab Hba. apply Hties; [..|done].
    + by rewrite kway_merge_perm in Ha.
    + rewrite kway_merge_perm in Hb. by rewrite (concat_perm l1 l2).
  - by apply kway_merge_sorted, Hss.
  - apply kway_merge_sorted, Hss. by rewrite <- Hperm.
  - rewrite !kway_merge_perm. by apply concat_perm.
Qed.

Lemma successes_cons (x : string) (order : list string) :
  successes providers (x :: order) =
    match providers x with
    | Rows rs => (x, rs) :: successes providers order
    | Failed _ => successes providers order
    end.
Proof. unfold successes. cbn. by destruct (providers x). Qed.

(** What is recorded for a collection once the tasks in [order] have
    completed. *)
Lemma find_successes (order : list string) (c : string) :
  List.find (fun e : string * list Row => String.eqb (fst e) c) (successes providers order) =
    if bool_decide (c ∈ order)
    then match providers c with Rows rs => Some (c, rs) | Failed _ => None end
    else None.
Proof.
  induction order as [|x order IH]; [done|].
  rewrite successes_cons.
  destruct (decide (x = c)) as [->|Hne].
  - rewrite bool_decide_eq_true_2 by by left.
    destruct (providers c) as [rs|msg] eqn:Hp.
    + cbn [List.find fst]. by rewrite String.eqb_refl.
    + rewrite IH. by case_bool_decide.
  - assert (Hb : bool_decide (c ∈ x :: order) = bool_decide (c ∈ order)).
    { apply bool_decide_ext. rewrite elem_of_cons. naive_solver. }
    rewrite Hb. destruct (providers x) as [rs|msg]; [|done].
    cbn [List.find fst]. by rewrite (proj2 (String.eqb_neq x c) Hne).
Qed.

(** Read in launch order, the accumulator holds the successes of the routes,
    whatever order the tasks completed in. *)
Lemma in_launch_order_successes (routes order : list string) errors :
  (forall c, c ∈ routes -> c ∈ order) ->
  in_launch_order routes {| acc_rows := successes providers order; acc_errors := errors |}
    = successes providers routes.
Proof.
  intros Hall. unfold in_launch_order, recorded. cbn [acc_rows].
  induction routes as [|c routes IH]; [done|].
  rewrite successes_cons. cbn. rewrite find_successes.
  rewrite bool_decide_eq_true_2 by (apply Hall; by left).
  rewrite IH by (intros c' Hc'; apply Hall; by right).
  by destruct (providers c).
Qed.



End EngineFacts.

Section CompletionOrder.
Import Plan Federation.

Lemma elem_of_concat_fmap_successes providers order (a : Row) :
  a ∈ concat (snd <$> successes providers order) ->
  exists c rs, c ∈ order /\ providers c = Rows rs /\ a ∈ rs.
Proof.
  rewrite list_elem_of_In, in_concat. intros (rs & Hrs & Ha).
  apply list_elem_of_In, list_elem_of_fmap in Hrs as ([c rs'] & -> & Hc).
  apply elem_of_successes in Hc as [Hc Hp].
  exists c, rs'. split_and!; [done..|]. by apply list_elem_of_In.
Qed.




(** Two collections hold record 1 under the same key with different
    contents: the merge order ties the two rows, and the one kept is that of
    the collection launched first, in either completion order. *)
Example tied_rows_follow_launch_order :
  let p := plan_with (Some (BySimilarity, Asc)) None None in
  result_rows (execute_multi_collection p twin_providers ["a"; "b"] BestEffort [0; 1])
    = Some [tagged_row 1 0 "a"] /\
  result_rows (execute_multi_collection p twin_providers ["a"; "b"] BestEffort [1; 0])
    = Some [tagged_row 1 0 "a"].
Proof. split; by vm_compute. Qed.

End CompletionOrder.

Section FailurePolicy.
Import Plan Federation.

Variable providers : string -> Outcome.

Lemma failures_none (order : list string) :
  (forall c, c ∈ order -> exists rs, providers c = Rows rs) ->
  failures providers order = [].
Proof.
  induction order as [|c order IH]; intros Hok; [done|].
  unfold failures. cbn. destruct (Hok c) as [rs ->]; [by left|].
  apply IH. intros c' Hc'. apply Hok. by right.
Qed.

Lemma failures_app (l1 l2 : list string) :
  failures providers (l1 ++ l2) = failures providers l1 ++ failures providers l2.
Proof. apply omap_app. Qed.

(** With exactly one collection down, it is the only entry ever recorded as
    failed, whenever its task completes. *)
Lemma failures_single (order : list string) (failing msg : string) :
  NoDup order -> failing ∈ order -> providers failing = Failed msg ->
  (forall c, c ∈ order -> c <> failing -> exists rs, providers c = Rows rs) ->
  failures providers order = [(failing, msg)].
Proof.
  intros Hnd Hin Hfail Hok.
  apply list_elem_of_split in Hin as (l1 & l2 & ->).
  apply NoDup_app in Hnd as (_ & Hdisj & Hnd2). apply NoDup_cons in Hnd2 as [Hnot2 _].
  rewrite failures_app. rewrite (failures_none l1).
  2:{ intros c Hc. apply Hok; [apply elem_of_app; by left|].
      intros ->. apply (Hdisj failing Hc). by left. }
  change (failing :: l2) with ([failing] ++ l2). rewrite failures_app.
  rewrite (failures_none l2).
  2:{ intros c Hc. apply Hok; [apply elem_of_app; right; by right|]. by intros ->. }
  unfold failures. cbn. by rewrite Hfail.
Qed.

End FailurePolicy.

Section FailurePolicyTheorem.
Import Plan Federation.

(** C3.  One of the launched collections fails and every other one returns
    rows (three collections in the claim; any number here).  Under
    best-effort the call returns a result: its diagnostics name exactly the
    failed collection, the contributing collections are the others, every
    returned row comes from a succeeding collection, and (absent limit and
    offset) every identifier a succeeding collection returned is in the
    result.  Under fail-fast the same run ends in an [ExecutionError] that
    carries the failed collection and its error, and no result. *)
Theorem partial_failure_policy (p : QueryPlan) (factory : ProviderFactory)
    (routes : list string) (schedule : list nat) (failing msg : string) :
  NoDup routes ->
  failing ∈ routes ->
  task_outcome factory p failing = Failed msg ->
  (forall c, c ∈ routes -> c <> failing ->
     exists rs, task_outcome factory p c = Rows rs) ->
  completion_order routes schedule ->
  (exists res,
     execute_multi_collection p factory routes BestEffort schedule = inr res /\
     diagnostics res = [(failing, msg)] /\
     (forall c, c ∈ contributed res <-> c ∈ routes /\ c <> failing) /\
     length (contributed res) = length routes - 1 /\
     count res = length (rows res) /\
     (forall r, r ∈ rows res ->
        exists c rs, c ∈ routes /\ c <> failing /\
                     task_outcome factory p c = Rows rs /\ r ∈ rs) /\
     (plan_limit p = None -> offset_of p = 0 ->
      forall c rs x, c ∈ routes -> task_outcome factory p c = Rows rs -> x ∈ rs ->
        exists r, r ∈ rows res /\ row_id r = row_id x)) /\
  execute_multi_collection p factory routes FailFast schedule =
    inl {| err_collection := failing; err_message := msg |}.
Proof.
  intros Hnd Hin Hfail Hok Hperm%completed_perm.
  unfold execute_multi_collection. set (providers := task_outcome factory p) in *.
  set (L := completed routes schedule) in *.
  assert (HndL : NoDup L) by by rewrite Hperm.
  assert (Hfs : failures providers L = [(failing, msg)]).
  { apply failures_single; [done|by rewrite Hperm|done|].
    intros c Hc. rewrite Hperm in Hc. by apply Hok. }
  assert (Hfr : failures providers routes = [(failing, msg)])
    by by apply failures_single.
  split; [|by rewrite gather_fail_fast, Hfs].
  rewrite gather_best_effort. unfold finish. cbn [empty_acc acc_rows acc_errors app].
  rewrite in_launch_order_successes by (intros c; by rewrite Hperm).
  eexists. split; [done|]. cbn.
  assert (Hcontrib : forall c, c ∈ (successes providers routes).*1
                               <-> c ∈ routes /\ c <> failing).
  { intros c. rewrite list_elem_of_fmap. split.
    - intros ([c' rs] & -> & [Hc Hp]%elem_of_successes). cbn.
      split; [done|]. intros ->. congruence.
    - intros [Hc Hne]. destruct (Hok c Hc Hne) as [rs Hp].
      exists (c, rs). split; [done|]. by apply elem_of_successes. }
  split_and!; [done|done| |done|..].
  - assert (Hlen : length (successes providers routes)
                   + length (failures providers routes) = length routes).
    { clear. unfold successes, failures. induction routes as [|c routes IH]; [done|].
      cbn. destruct (providers c); cbn; lia. }
    rewrite Hfr in Hlen. rewrite length_fmap. cbn in Hlen. lia.
  - intros r Hr.
    apply merge_step_from_inputs, elem_of_concat_fmap_successes
      in Hr as (c & rs & Hc & Hp & Hr).
    exists c, rs. split_and!; [done| |done..].
    intros ->. congruence.
  - intros Hlimit Hoffset c rs x Hc Hp Hx.
    unfold merge_step, paginate. rewrite Hlimit, Hoffset. cbn.
    apply dedup_merged_covers. apply list_elem_of_In, in_concat. exists rs.
    split; [|by apply list_elem_of_In].
    apply list_elem_of_In, list_elem_of_fmap. exists (c, rs). split; [done|].
    by apply elem_of_successes.
Qed.

End FailurePolicyTheorem.

Section FailurePolicyExample.
Import Plan Federation.

Lemma partial_failure_policy_witness :
  let p := plan_with (Some (BySimilarity, Desc)) None None in
  let routes := ["north"; "south"; "west"] in
  (exists res,
     execute_multi_collection p flaky_providers routes BestEffort [2; 0; 1] = inr res /\
     diagnostics res = [("west", "connection refused")] /\
     (forall c, c ∈ contributed res <-> c ∈ routes /\ c <> "west") /\
     length (contributed res) = length routes - 1 /\
     count res = length (rows res) /\
     (forall r, r ∈ rows res ->
        exists c rs, c ∈ routes /\ c <> "west" /\
                     task_outcome flaky_providers p c = Rows rs /\ r ∈ rs) /\
     (plan_limit p = None -> offset_of p = 0 ->
      forall c rs x, c ∈ routes -> task_outcome flaky_providers p c = Rows rs -> x ∈ rs ->
        exists r, r ∈ rows res /\ row_id r = row_id x)) /\
  execute_multi_collection p flaky_providers routes FailFast [2; 0; 1] =
    inl {| err_collection := "west"; err_message := "connection refused" |}.
Proof.
  apply (partial_failure_policy _ flaky_providers).
  - apply (bool_decide_unpack _). by vm_compute.
  - set_solver.
  - by vm_compute.
  - intros c Hc Hne. repeat (apply elem_of_cons in Hc as [->|Hc]);
      [by eexists|by eexists|done|by inversion Hc].
  - exact (Permutation_cons_app [0; 1] [] 2 (Permutation_refl [0; 1])).
Defined.

End FailurePolicyExample.

(* ===================================================================== *)
(** * Facts about the planner                                             *)
(* ===================================================================== *)

Section PlannerFacts.
Import Plan Planner.

Variable e : Entry.

Lemma first_unknown_app (l1 l2 : list string) :
  first_unknown e (l1 ++ l2) =
    match first_unknown e l1 with
    | Some f => Some f
    | None => first_unknown e l2
    end.
Proof.
  unfold first_unknown. induction l1 as [|f l1 IH]; [done|].
  cbn. by destruct (negb (known e f)).
Qed.

Lemma first_unknown_None (l : list string) :
  first_unknown e l = None <-> Forall (fun f => known e f = true) l.
Proof.
  unfold first_unknown. induction l as [|f l IH]; cbn.
  - split; [constructor|done].
  - destruct (known e f) eqn:Hf; cbn.
    + rewrite IH. split; [by constructor|by inversion 1].
    + split; [done|]. inversion 1; congruence.
Qed.

Lemma first_unknown_Some (l : list string) (f : string) :
  first_unknown e l = Some f -> f ∈ l /\ known e f = false.
Proof.
  unfold first_unknown. intros [Hin Hf]%find_some.
  split; [by apply list_elem_of_In|]. by destruct (known e f).
Qed.

Lemma resolve_field_spec (f : string) :
  resolve_field e f =
    match first_unknown e [f] with
    | Some g => fail (UnknownField g)
    | None => ok tt
    end.
Proof. unfold resolve_field, first_unknown. cbn. by destruct (known e f). Qed.

Lemma plan_item_fields (i : SelectItem) :
  source_fields (proj_source (plan_item i)) = item_fields i.
Proof. by destruct i. Qed.

Lemma resolve_items_spec (items : list SelectItem) :
  resolve_items e items =
    match first_unknown e (concat (map item_fields items)) with
    | Some f => fail (UnknownField f)
    | None => ok (map plan_item items)
    end.
Proof.
  induction items as [|i items IH]; [done|].
  cbn [resolve_items map concat]. rewrite first_unknown_app, IH.
  destruct i as [f alias| | |]; cbn; try by destruct (first_unknown e _).
  unfold resolve_field, first_unknown. cbn. destruct (known e f); cbn; [|done].
  by destruct (find _ _).
Qed.

Lemma resolve_pred_spec (p : Predicate) :
  resolve_pred e p =
    match first_unknown e (pred_fields p) with
    | Some f => fail (UnknownField f)
    | None => ok tt
    end.
Proof.
  induction p as [a IHa b IHb|a IHa b IHb|a IHa|f op lit|f lits|v k];
    cbn [resolve_pred pred_fields].
  - rewrite first_unknown_app, IHa, IHb. by destruct (first_unknown e (pred_fields a)).
  - rewrite first_unknown_app, IHa, IHb. by destruct (first_unknown e (pred_fields a)).
  - done.
  - apply resolve_field_spec.
  - apply resolve_field_spec.
  - done.
Qed.

Lemma resolve_order_spec (o : OrderKey * option Direction) :
  resolve_order e o =
    match first_unknown e (key_fields o.1) with
    | Some f => fail (UnknownField f)
    | None => ok (o.1, default (default_direction o.1) o.2)
    end.
Proof.
  unfold resolve_order. destruct o as [[|f] d]; cbn; [done|].
  unfold resolve_field, first_unknown. cbn. by destruct (known e f).
Qed.

(** Once every field is known, the type checks never report an unknown
    field. *)
Lemma check_pred_not_unknown (p : Predicate) (f : string) :
  first_unknown e (pred_fields p) = None ->
  check_pred e p <> fail (UnknownField f).
Proof.
  induction p as [a IHa b IHb|a IHa b IHb|a IHa|g op lit|g lits|v k];
    cbn [check_pred pred_fields].
  1,2: rewrite first_unknown_app;
       destruct (first_unknown e (pred_fields a)) eqn:Ha; [done|]; intros Hb;
       specialize (IHa eq_refl); specialize (IHb Hb);
       destruct (check_pred e a); cbn; [congruence|done].
  - done.
  - intros Hk%first_unknown_None. inversion Hk as [|?? Hg _]; subst.
    unfold known in Hg. apply bool_decide_eq_true in Hg as [t Ht]. rewrite Ht.
    by destruct (needs_order op && negb (ordinal t)).
  - done.
  - intros _. destruct (entry_dimension e) as [d|]; [|done].
    by destruct (Nat.eqb (length v) d).
Qed.

Lemma and_chain_fields (x y : Predicate) :
  pred_fields (and_chain x y) = pred_fields x ++ pred_fields y.
Proof.
  revert y. induction x as [a IHa b IHb| | | | |]; intros y; cbn; try done.
  by rewrite IHb, app_assoc.
Qed.

Lemma or_chain_fields (x y : Predicate) :
  pred_fields (or_chain x y) = pred_fields x ++ pred_fields y.
Proof.
  revert y. induction x as [|a IHa b IHb| | | |]; intros y; cbn; try done.
  by rewrite IHb, app_assoc.
Qed.

(** Normalising a predicate keeps its field references, in order. *)
Lemma normalize_fields (p : Predicate) : pred_fields (normalize p) = pred_fields p.
Proof.
  induction p as [a IHa b IHb|a IHa b IHb|a IHa| | |]; cbn; try done.
  - by rewrite and_chain_fields, IHa, IHb.
  - by rewrite or_chain_fields, IHa, IHb.
Qed.

Lemma star_fields_known :
  Forall (fun f => known e f = true)
         (concat (map (fun i => source_fields (proj_source i)) (star e))).
Proof.
  unfold star. cbn. apply Forall_forall. intros f Hf.
  apply list_elem_of_In, in_concat in Hf as (l & Hl & Hf).
  apply in_map_iff in Hl as (i & <- & Hi).
  apply in_map_iff in Hi as ([g t] & <- & Hg). cbn in Hf.
  destruct Hf as [<-|[]]. apply list_elem_of_In, elem_of_map_to_list in Hg.
  unfold known. apply bool_decide_eq_true. by eexists.
Qed.

Lemma map_plan_item_fields (items : list SelectItem) :
  concat (map (fun i => source_fields (proj_source i)) (map plan_item items)) =
  concat (map item_fields items).
Proof.
  induction items as [|i items IH]; [done|].
  cbn. by rewrite plan_item_fields, IH.
Qed.

End PlannerFacts.

Section PlannerTheorem.
Import Plan Planner.

(** C4.  [build_plan] ends in a plan or in a [PlanningError], never both and
    never a partial plan.  A plan is only returned when the statement's
    collection is in the schema and every field the plan refers to
    (projection, predicate, order) is a known field of it.  When the
    statement refers to a field the schema does not know, the result is
    [UnknownField f] for the first such reference in reading order; and
    [UnknownField] is reported for no other reason. *)
Theorem build_plan_resolves_fields (st : Statement) (schema : Schema) :
  match build_plan st schema with
  | inr plan =>
      exists e, schema !! stmt_from st = Some e /\
                first_unknown e (stmt_fields st) = None /\
                Forall (fun f => known e f = true) (plan_fields plan)
  | inl err =>
      match schema !! stmt_from st with
      | None => err = UnresolvedRouting (stmt_from st)
      | Some e =>
          match first_unknown e (stmt_fields st) with
          | Some f => err = UnknownField f /\ f ∈ stmt_fields st /\ known e f = false
          | None => forall f, err <> UnknownField f
          end
      end
  end.
Proof.
  unfold build_plan, stmt_fields.
  destruct (schema !! stmt_from st) as [e|]; [|done].
  destruct st as [proj from whr ord lim]; cbn [stmt_projection stmt_where stmt_order stmt_limit].
  rewrite !first_unknown_app.
  (* projection *)
  assert (Hproj : resolve_projection e proj =
                  match first_unknown e (clause_fields proj) with
                  | Some f => fail (UnknownField f)
                  | None => resolve_projection e proj
                  end /\
                  forall items, resolve_projection e proj = ok items ->
                    Forall (fun f => known e f = true)
                      (concat (map (fun i => source_fields (proj_source i)) items))).
  { destruct proj as [|items]; cbn [resolve_projection clause_fields].
    - split; [done|]. intros ? [= <-]. apply star_fields_known.
    - rewrite resolve_items_spec.
      destruct (first_unknown e _) eqn:Hfu; (split; [done|]); [by intros ? [=]|].
      intros ? [= <-]. rewrite map_plan_item_fields. by apply first_unknown_None. }
  destruct Hproj as [Hproj1 Hproj2].
  destruct (first_unknown e (clause_fields proj)) as [f|] eqn:Hp.
  { rewrite Hproj1. cbn. split; [done|].
    apply first_unknown_Some in Hp as [Hin Hk]. split; [|done].
    apply elem_of_app. by left. }
  destruct (resolve_projection e proj) as [err|items] eqn:Hres.
  { exfalso. clear Hproj1 Hproj2.
    destruct proj as [|its]; cbn [resolve_projection clause_fields] in *; [done|].
    rewrite resolve_items_spec, Hp in Hres. done. }
  specialize (Hproj2 items eq_refl). cbn [and_then].
  (* predicate *)
  assert (Hwhr : from_option (resolve_pred e) (ok tt) whr =
                 match first_unknown e (from_option pred_fields [] whr) with
                 | Some f => fail (UnknownField f)
                 | None => ok tt
                 end).
  { destruct whr as [p|]; cbn; [apply resolve_pred_spec|done]. }
  rewrite Hwhr.
  destruct (first_unknown e (from_option pred_fields [] whr)) as [f|] eqn:Hw.
  { cbn. split; [done|]. apply first_unknown_Some in Hw as [Hin Hk]. split; [|done].
    apply elem_of_app. right. apply elem_of_app. by left. }
  cbn [and_then ok].
  (* order *)
  destruct ord as [o|]; cbn [from_option].
  - rewrite resolve_order_spec.
    destruct (first_unknown e (key_fields o.1)) as [f|] eqn:Ho.
    { cbn. split; [done|]. apply first_unknown_Some in Ho as [Hin Hk]. split; [|done].
      apply elem_of_app. right. apply elem_of_app. by right. }
    cbn [and_then ok].
    destruct (from_option (check_pred e) (ok tt) whr) as [err|[]] eqn:Hchk.
    { cbn. intros f ->. destruct whr as [p|]; [|done].
      by apply (check_pred_not_unknown e p f). }
    cbn [and_then]. destruct (check_limit lim) as [err|window] eqn:Hlim.
    { cbn. intros f ->. unfold check_limit in Hlim.
      destruct lim as [[n [m|]]|]; repeat case_match; done. }
    cbn. exists e. split; [done|]. split.
    { rewrite !first_unknown_app. by rewrite Hp, Hw, Ho. }
    unfold plan_fields. cbn. rewrite !Forall_app. split_and!; [done| |].
    + destruct whr as [p|]; cbn; [|constructor].
      rewrite normalize_fields. by apply first_unknown_None.
    + by apply first_unknown_None.
  - cbn [and_then ok].
    destruct (from_option (check_pred e) (ok tt) whr) as [err|[]] eqn:Hchk.
    { cbn. intros f ->. destruct whr as [p|]; [|done].
      by apply (check_pred_not_unknown e p f). }
    cbn [and_then]. destruct (check_limit lim) as [err|window] eqn:Hlim.
    { cbn. intros f ->. unfold check_limit in Hlim.
      destruct lim as [[n [m|]]|]; repeat case_match; done. }
    cbn. exists e. split; [done|]. split.
    { rewrite !first_unknown_app. by rewrite Hp, Hw. }
    unfold plan_fields. cbn. rewrite !Forall_app. split_and!; [done| |constructor].
    destruct whr as [p|]; cbn; [|constructor].
    rewrite normalize_fields. by apply first_unknown_None.
Qed.

(** The scenario statement of section 8 plans; a statement that filters on
    a field the schema lacks is refused with that field's name. *)
Example build_plan_scenario :
  exists plan,
    build_plan scenario_statement sample_schema = inr plan /\
    plan_fields plan = ["category"; "category"] /\
    plan_order plan = Some (BySimilarity, Desc) /\
    plan_limit plan = Some 2 /\
    plan_targets plan = ["docs"].
Proof. eexists. split_and!; by vm_compute. Qed.

Example build_plan_unknown_author :
  build_plan unknown_author_statement sample_schema = inl (UnknownField "author").
Proof. by vm_compute. Qed.

End PlannerTheorem.

(* ===================================================================== *)
(** * Facts about the router                                              *)
(* ===================================================================== *)

Section RouterFacts.
Import Plan Router.

Variable field : string.







End RouterFacts.

Section RouterTheorem.
Import Plan Router.



End RouterTheorem.

(* ===================================================================== *)
(** * Further facts about the package's module body                       *)
(* ===================================================================== *)

Section ImportOutcomeFacts.
Import PackageInit ImportOutcome.

Lemma optional_import_unfold env ns :
  optional_import env ns =
    match import_from env ".multi_collection" multi_collection_names ns with
    | (ns1, inl e) =>
        if is_ImportError e then (<[FLAG := VBool false]> ns1, inr tt) else (ns1, inl e)
    | (ns1, inr _) =>
        match import_from env ".adapters" adapters_names ns1 with
        | (ns2, inl e) =>
            if is_ImportError e then (<[FLAG := VBool false]> ns2, inr tt)
            else (ns2, inl e)
        | (ns2, inr _) => (<[FLAG := VBool true]> ns2, inr tt)
        end
    end.
Proof.
  unfold optional_import, try_except_ImportError, bind, store.
  destruct (import_from env ".multi_collection" _ ns) as [ns1 [e|[]]]; [done|].
  by destruct (import_from env ".adapters" _ ns1) as [ns2 [e|[]]].
Qed.

Lemma core_ok_first_error env :
  core_ok env = true <-> first_error env core_imports = None.
Proof.
  unfold core_ok. generalize core_imports. intros l.
  induction l as [|[m names] l IH]; [done|]. cbn.
  rewrite andb_true_iff, IH, provides_import_error.
  destruct (import_error env m names); naive_solver.
Qed.

(** The unconditional imports stop at the first one that fails, with its
    exception. *)
Lemma run_imports_first_error env l ns e :
  first_error env l = Some e -> exists ns', run_imports env l ns = (ns', inl e).
Proof.
  revert ns. induction l as [|[m names] l IH]; intros ns; [done|]. cbn.
  pose proof (import_from_spec env m names ns) as Hs. unfold bind.
  destruct (import_error env m names) as [e'|].
  - intros [= ->]. destruct Hs as [ns' ->]. eauto.
  - intros He. destruct Hs as (attrs & _ & _ & ->). by apply IH.
Qed.

Lemma untouched_all : untouched "__all__".
Proof.
  unfold untouched. split_and!; apply (bool_decide_unpack _); by vm_compute.
Qed.

Lemma untouched_flag : untouched FLAG.
Proof.
  unfold untouched. split_and!; apply (bool_decide_unpack _); by vm_compute.
Qed.

Lemma all_reserved : "__all__" ∈ reserved.
Proof. apply (bool_decide_unpack _). by vm_compute. Qed.

Lemma flag_reserved : FLAG ∈ reserved.
Proof. apply (bool_decide_unpack _). by vm_compute. Qed.

Lemma multi_reserved n : n ∈ multi_all -> n ∈ reserved.
Proof. intros Hn. unfold reserved. rewrite !elem_of_app. auto. Qed.

Lemma reserved_not_optional_submodule n :
  n ∈ reserved -> n <> submodule ".multi_collection" /\ n <> submodule ".adapters".
Proof.
  revert n. apply Forall_forall. apply (bool_decide_unpack _). by vm_compute.
Qed.

Lemma not_multi_names n :
  n ∉ multi_all -> (n ∉ multi_collection_names) /\ (n ∉ adapters_names).
Proof.
  unfold multi_all, multi_collection_names, adapters_names.
  rewrite !not_elem_of_cons. naive_solver.
Qed.

(** ** Names that keep their binding or become a loaded sibling *)

Lemma kept_refl env ms (ns : Namespace) n : kept_or_loaded env ms ns ns n.
Proof. by left. Qed.

Lemma kept_trans env ms (a b c : Namespace) n :
  kept_or_loaded env ms a b n -> kept_or_loaded env ms b c n ->
  kept_or_loaded env ms a c n.
Proof.
  intros [H1|[H1 L1]] [H2|[H2 L2]].
  - left. congruence.
  - by right.
  - right. split; [congruence|done].
  - by right.
Qed.

Lemma kept_mono env ms ms' (a b : Namespace) n :
  (forall m, m ∈ ms -> m ∈ ms') ->
  kept_or_loaded env ms a b n -> kept_or_loaded env ms' a b n.
Proof.
  intros Hsub [H|[H (m & Hm & Hl)]]; [by left|].
  right. split; [done|]. exists m. auto.
Qed.

Lemma kept_insert env ms (a b : Namespace) n x v :
  n <> x -> kept_or_loaded env ms a b n -> kept_or_loaded env ms a (<[x := v]> b) n.
Proof.
  intros Hne [H|[H L]]; [left|right; split; [|done]];
    by rewrite lookup_insert_ne.
Qed.

(** A submodule that is bound to its module stays so. *)
Lemma kept_module env ms (a b : Namespace) n m :
  m = "." +:+ n -> a !! n = Some (VModule m) -> kept_or_loaded env ms a b n ->
  b !! n = Some (VModule m).
Proof. intros -> Ha [H|[H _]]; congruence. Qed.

Lemma import_from_kept env m names ns ns' r n :
  import_from env m names ns = (ns', r) -> n ∉ names -> n <> submodule m ->
  kept_or_loaded env [m] ns ns' n.
Proof.
  intros H Hn Hm. unfold kept_or_loaded.
  rewrite (import_from_lookup _ _ _ _ _ _ _ H Hn Hm).
  case_bool_decide as Hl; [right|by left].
  split; [done|]. exists m. split; [by left|done].
Qed.

Lemma run_imports_kept env l ns ns' r n :
  run_imports env l ns = (ns', r) ->
  n ∉ concat (map snd l) -> n ∉ map (fun mn => submodule mn.1) l ->
  kept_or_loaded env (map fst l) ns ns' n.
Proof.
  revert ns. induction l as [|[m names] rest IH]; intros ns H Hn Hm.
  - cbn in H. unfold ret in H. injection H as <- _. apply kept_refl.
  - cbn in H, Hn, Hm. apply not_elem_of_app in Hn as [Hn1 Hn2].
    apply not_elem_of_cons in Hm as [Hm1 Hm2].
    unfold bind in H. destruct (import_from env m names ns) as [ns1 [e|[]]] eqn:Hi.
    + injection H as <- _.
      eapply kept_mono; [|by eapply import_from_kept]. set_solver.
    + eapply kept_trans.
      * eapply kept_mono; [|by eapply import_from_kept]. set_solver.
      * eapply kept_mono; [|by eapply IH]. set_solver.
Qed.

Lemma optional_import_kept env ns ns' r n :
  optional_import env ns = (ns', r) ->
  n ∉ multi_all -> n ∉ optional_submodules -> n <> FLAG ->
  kept_or_loaded env [".multi_collection"; ".adapters"] ns ns' n.
Proof.
  rewrite optional_import_unfold. intros H Hn Hm Hflag.
  destruct (not_multi_names n Hn) as [Hn1 Hn2].
  assert (Hs : n <> submodule ".multi_collection" /\ n <> submodule ".adapters").
  { revert Hm. unfold optional_submodules. cbn. rewrite !not_elem_of_cons. naive_solver. }
  destruct Hs as [Hm1 Hm2].
  destruct (import_from env ".multi_collection" _ ns) as [ns1 [e|[]]] eqn:H1.
  - pose proof (import_from_kept _ _ _ _ _ _ n H1 Hn1 Hm1) as K1.
    apply (kept_mono _ _ [".multi_collection"; ".adapters"]) in K1; [|set_solver].
    destruct (is_ImportError e); injection H as <- <-; [|done].
    by apply kept_insert.
  - pose proof (import_from_kept _ _ _ _ _ _ n H1 Hn1 Hm1) as K1.
    apply (kept_mono _ _ [".multi_collection"; ".adapters"]) in K1; [|set_solver].
    destruct (import_from env ".adapters" _ ns1) as [ns2 [e|[]]] eqn:H2;
      pose proof (import_from_kept _ _ _ _ _ _ n H2 Hn2 Hm2) as K2;
      (apply (kept_mono _ _ [".multi_collection"; ".adapters"]) in K2; [|set_solver]).
    + destruct (is_ImportError e); injection H as <- <-.
      * apply kept_insert; [done|]. by eapply kept_trans.
      * by eapply kept_trans.
    + injection H as <- <-. apply kept_insert; [done|]. by eapply kept_trans.
Qed.

Lemma optional_import_frame env ns ns' r n :
  optional_import env ns = (ns', r) ->
  n ∉ multi_all -> n ∈ reserved -> n <> FLAG ->
  ns' !! n = ns !! n.
Proof.
  intros H Hn Hr Hflag.
  destruct (reserved_not_optional_submodule n Hr) as [Hm1 Hm2].
  assert (Hm : n ∉ optional_submodules).
  { unfold optional_submodules. rewrite !not_elem_of_cons. cbn in Hm1, Hm2.
    split_and!; [done..|apply not_elem_of_nil]. }
  destruct (optional_import_kept _ _ _ _ _ H Hn Hm Hflag) as [K|[_ (m & _ & Hl)]]; [done|].
  by destruct (reserved_not_loaded env m n Hr).
Qed.

(** When the [try] block lets an exception through, the flag was not
    assigned. *)
Lemma optional_import_raise_flag env ns ns' e :
  optional_import env ns = (ns', inl e) -> ns' !! FLAG = ns !! FLAG.
Proof.
  rewrite optional_import_unfold. intros H.
  assert (Hf : (FLAG ∉ multi_collection_names) /\ (FLAG ∉ adapters_names) /\
               FLAG <> submodule ".multi_collection" /\ FLAG <> submodule ".adapters").
  { split_and!; apply (bool_decide_unpack _); by vm_compute. }
  destruct Hf as (Hn1 & Hn2 & Hm1 & Hm2). pose proof flag_reserved as Hr.
  destruct (import_from env ".multi_collection" _ ns) as [ns1 [e1|[]]] eqn:H1.
  - pose proof (import_from_frame _ _ _ _ _ _ FLAG H1 Hn1 Hm1 Hr) as Hfr.
    destruct (is_ImportError e1); [done|]. by injection H as <- <-.
  - pose proof (import_from_frame _ _ _ _ _ _ FLAG H1 Hn1 Hm1 Hr) as Hfr1.
    destruct (import_from env ".adapters" _ ns1) as [ns2 [e2|[]]] eqn:H2; [|done].
    pose proof (import_from_frame _ _ _ _ _ _ FLAG H2 Hn2 Hm2 Hr) as Hfr2.
    destruct (is_ImportError e2); [done|]. injection H as <- <-. congruence.
Qed.

Lemma success_needs_core env :
  (exists ns, import_package env = (ns, inr tt)) -> core_ok env = true.
Proof.
  intros [ns Hrun]. pose proof (import_package_cases env) as Hc.
  destruct (core_ok env); [done|]. destruct Hc as (? & ? & Hc). congruence.
Qed.

Lemma present_is_Some attrs names n :
  present attrs names = true -> n ∈ names -> is_Some (attrs !! n).
Proof.
  unfold present. rewrite forallb_forall. intros Hp Hn.
  apply (proj1 (bool_decide_eq_true _)), Hp. by apply list_elem_of_In.
Qed.

(** How the package import ends when the unconditional imports go through,
    in terms of the two optional [from ... import] statements. *)
Lemma import_package_optional env :
  core_ok env = true ->
  exists ns1,
    import_package env =
      match import_from env ".multi_collection" multi_collection_names ns1 with
      | (ns2, inl e) =>
          if is_ImportError e
          then (<["__all__" := VList core_all]> (<[FLAG := VBool false]> ns2), inr tt)
          else (ns2, inl e)
      | (ns2, inr _) =>
          match import_from env ".adapters" adapters_names ns2 with
          | (ns3, inl e) =>
              if is_ImportError e
              then (<["__all__" := VList core_all]> (<[FLAG := VBool false]> ns3), inr tt)
              else (ns3, inl e)
          | (ns3, inr _) =>
              (<["__all__" := VList (core_all ++ multi_all)]>
                 (<[FLAG := VBool true]> ns3), inr tt)
          end
      end.
Proof.
  intros Hcore. rewrite import_package_unfold.
  destruct (run_imports_ok env core_imports ns_before_imports Hcore) as [ns1 ->].
  exists ns1. rewrite optional_import_unfold.
  destruct (import_from env ".multi_collection" _ ns1) as [ns2 [e|[]]].
  - destruct (is_ImportError e); [|done].
    rewrite (finish_all_flag false). by rewrite app_nil_r.
  - destruct (import_from env ".adapters" _ ns2) as [ns3 [e|[]]].
    + destruct (is_ImportError e); [|done].
      rewrite (finish_all_flag false). by rewrite app_nil_r.
    + by rewrite (finish_all_flag true).
Qed.

Lemma bound_frame attrs names (ns : Namespace) n :
  present attrs names = true -> n ∉ names -> bound attrs names ns !! n = ns !! n.
Proof.
  intros Hp Hn. pose proof (bind_names_ok attrs names ns Hp) as Hb.
  exact (bind_names_frame _ _ _ _ _ _ Hb Hn).
Qed.

(** The statements after the [try] block bind [__all__] and nothing else. *)
Lemma finish_all_frame ns ns' r n :
  finish_all ns = (ns', r) -> n <> "__all__" -> ns' !! n = ns !! n.
Proof.
  unfold finish_all, bind, store, load, extend, ret, raise. intros H Hn.
  repeat case_match; simplify_eq; rewrite ?lookup_insert_ne by done; try done.
  unfold bind, load, store in H. rewrite lookup_insert_eq in H. simplify_eq.
  by rewrite !lookup_insert_ne by done.
Qed.

(** Each [from .m import ...] that went through left the submodule bound
    to its module, and no later import binds it to anything else. *)
Lemma run_imports_submodule env l ns ns' m names :
  NoDup (map (fun mn : string * list string => submodule mn.1) l) ->
  (forall x, x ∈ concat (map snd l) ->
             x ∉ map (fun mn : string * list string => submodule mn.1) l) ->
  Forall (fun mn : string * list string => mn.1 = "." +:+ submodule mn.1) l ->
  run_imports env l ns = (ns', inr tt) ->
  (m, names) ∈ l ->
  ns' !! submodule m = Some (VModule m).
Proof.
  revert ns. induction l as [|[m0 names0] rest IH]; intros ns Hnd Hsub Hshape H Hin;
    [by inversion Hin|].
  cbn in Hnd, H, Hsub. apply NoDup_cons in Hnd as [Hm0 Hnd].
  apply Forall_cons in Hshape as [Hshape0 Hshape].
  assert (Hsub_rest : forall x, x ∈ concat (map snd rest) ->
                        x ∉ map (fun mn : string * list string => submodule mn.1) rest).
  { intros x Hx. specialize (Hsub x (proj2 (elem_of_app _ _ _) (or_intror Hx))).
    by apply not_elem_of_cons in Hsub as [_ ?]. }
  unfold bind in H. pose proof (import_from_spec env m0 names0 ns) as Hs.
  destruct (import_error env m0 names0) as [e|].
  { destruct Hs as [ns1 Hs]. rewrite Hs in H. by inversion H. }
  destruct Hs as (attrs & Henv & Hp & Hs). rewrite Hs in H.
  apply elem_of_cons in Hin as [Heq|Hin]; [|by eapply IH].
  inversion Heq; subst.
  assert (Hfresh : forall x, x ∈ names0 ++ concat (map snd rest) -> x <> submodule m0).
  { intros x Hx ->. apply (Hsub _ Hx). apply list_elem_of_here. }
  eapply kept_module; [exact Hshape0| |eapply run_imports_kept; [exact H|..]].
  - rewrite bound_frame; [apply lookup_insert_eq|done|].
    intros Hx. by apply (Hfresh (submodule m0)); [apply elem_of_app; left|].
  - intros Hx. by apply (Hfresh (submodule m0)); [apply elem_of_app; right|].
  - done.
Qed.

(** [__all__] after a successful import is one of two lists. *)
Lemma exports_cases env ns :
  import_package env = (ns, inr tt) ->
  exports ns = core_all \/ exports ns = core_all ++ multi_all.
Proof.
  intros Hrun. pose proof (import_package_cases env) as Hc.
  destruct (core_ok env); [|destruct Hc as (? & ? & Hc); congruence].
  destruct (optional_error env) as [e|].
  - destruct (is_ImportError e); [|destruct Hc as (? & Hc); congruence].
    destruct Hc as (ns' & Hc & _). left.
    assert (ns = <["__all__" := VList core_all]> (<[FLAG := VBool false]> ns'))
      as -> by congruence.
    unfold exports. by rewrite lookup_insert_eq.
  - destruct Hc as (ns' & Hc & _). right.
    assert (ns = <["__all__" := VList (core_all ++ multi_all)]>
                   (<[FLAG := VBool true]> ns')) as -> by congruence.
    unfold exports. by rewrite lookup_insert_eq.
Qed.

End ImportOutcomeFacts.

Section ImportOutcomeTheorems.
Import PackageInit ImportOutcome.

(** X1.  The package imports exactly when every unconditional import goes
    through and the optional block either goes through or ends in an
    [ImportError]. *)
Theorem import_succeeds_iff (env : ImportEnv) :
  (exists ns, import_package env = (ns, inr tt)) <->
  core_ok env = true /\
  (forall e, optional_error env = Some e -> is_ImportError e = true).
Proof.
  pose proof (import_package_cases env) as Hc. split.
  - intros [ns Hrun]. destruct (core_ok env).
    2:{ destruct Hc as (? & ? & Hc). congruence. }
    split; [done|]. intros e He. rewrite He in Hc.
    destruct (is_ImportError e); [done|]. destruct Hc as [? Hc]. congruence.
  - intros [Hcore Hopt]. rewrite Hcore in Hc.
    destruct (optional_error env) as [e|].
    + rewrite (Hopt e eq_refl) in Hc. destruct Hc as (ns' & -> & _). eauto.
    + destruct Hc as (ns' & -> & _). eauto.
Qed.

(** X2.  When the package import fails, it fails with the exception of the
    first failing unconditional import or with the exception, not an
    [ImportError], that the optional block let through; and neither
    [__all__] nor the flag has been bound. *)
Theorem failed_import_binds_no_exports (env : ImportEnv) (ns : Namespace) (e : PyExc) :
  import_package env = (ns, inl e) ->
  ns !! "__all__" = None /\
  ns !! FLAG = None /\
  (first_error env core_imports = Some e \/
   (core_ok env = true /\ optional_error env = Some e /\ is_ImportError e = false)).
Proof.
  intros Hrun. rewrite import_package_unfold in Hrun.
  destruct untouched_all as (Ha1 & Ha2 & Ha3 & Ha4).
  destruct untouched_flag as (Hf1 & Hf2 & Hf3 & Hf4).
  destruct (run_imports env core_imports ns_before_imports) as [ns1 [e1|[]]] eqn:Hcore.
  - injection Hrun as <- <-.
    rewrite (run_imports_frame _ _ _ _ _ "__all__" Hcore Ha1 Ha2 all_reserved).
    rewrite (run_imports_frame _ _ _ _ _ FLAG Hcore Hf1 Hf2 flag_reserved).
    split_and!; [done..|]. left.
    destruct (first_error env core_imports) as [e'|] eqn:Hfe.
    + destruct (run_imports_first_error env _ ns_before_imports e' Hfe) as [ns' Hr].
      congruence.
    + apply core_ok_first_error in Hfe.
      destruct (run_imports_ok env _ ns_before_imports Hfe) as [ns' Hr]. congruence.
  - assert (Hok : core_ok env = true).
    { destruct (core_ok env) eqn:Hc; [done|].
      destruct (run_imports_fail env _ ns_before_imports Hc) as (? & ? & Hr). congruence. }
    pose proof (optional_import_spec env ns1) as Hspec.
    destruct (optional_import env ns1) as [ns2 [e2|[]]] eqn:Hopt.
    + injection Hrun as <- <-.
      rewrite (optional_import_frame _ _ _ _ "__all__" Hopt Ha3 all_reserved) by done.
      rewrite (optional_import_raise_flag _ _ _ _ Hopt).
      rewrite (run_imports_frame _ _ _ _ _ "__all__" Hcore Ha1 Ha2 all_reserved).
      rewrite (run_imports_frame _ _ _ _ _ FLAG Hcore Hf1 Hf2 flag_reserved).
      split_and!; [done..|]. right. split; [done|].
      destruct (optional_error env) as [e'|].
      * destruct (is_ImportError e') eqn:Hie.
        -- destruct Hspec as (? & Hs & _). congruence.
        -- destruct Hspec as (? & Hs). by simplify_eq.
      * destruct Hspec as (? & Hs & _). congruence.
    + exfalso. destruct (optional_error env) as [e'|].
      * destruct (is_ImportError e').
        -- destruct Hspec as (ns' & [= ->] & _). by rewrite finish_all_flag in Hrun.
        -- destruct Hspec as (? & Hs). congruence.
      * destruct Hspec as (ns' & [= ->] & _). by rewrite finish_all_flag in Hrun.
Qed.

Lemma failed_import_binds_no_exports_witness :
  (import_package env_no_planner).1 !! "__all__" = None /\
  (import_package env_no_planner).1 !! FLAG = None /\
  (first_error env_no_planner core_imports = Some ModuleNotFoundError \/
   (core_ok env_no_planner = true /\
    optional_error env_no_planner = Some ModuleNotFoundError /\
    is_ImportError ModuleNotFoundError = false)).
Proof.
  apply (failed_import_binds_no_exports env_no_planner).
  rewrite (surjective_pairing (import_package env_no_planner)) at 1.
  f_equal; by vm_compute.
Defined.

(** X3.  After a successful import [__all__] lists no name twice, every name
    it lists is bound in the package namespace, and it lists neither the flag
    nor itself. *)
Theorem exported_names_are_bound (env : ImportEnv) (ns : Namespace) :
  import_package env = (ns, inr tt) ->
  NoDup (exports ns) /\
  (forall n, n ∈ exports ns -> is_Some (ns !! n)) /\
  (FLAG ∉ exports ns) /\
  ("__all__" ∉ exports ns).
Proof.
  intros Hrun.
  assert (Hcore : core_ok env = true).
  { apply (success_needs_core env). eauto. }
  pose proof (import_package_cases env) as Hc. rewrite Hcore in Hc.
  assert (Hnd : NoDup (core_all ++ multi_all) /\ NoDup core_all /\
                (FLAG ∉ core_all ++ multi_all) /\ ("__all__" ∉ core_all ++ multi_all) /\
                (FLAG ∉ core_all) /\ ("__all__" ∉ core_all)).
  { split_and!; apply (bool_decide_unpack _); by vm_compute. }
  destruct Hnd as (Hnd1 & Hnd2 & Hf1 & Ha1 & Hf2 & Ha2).
  assert (Hcore_bound : forall ns' : Namespace,
            (forall n, n ∈ core_all -> is_Some (ns' !! n) /\ ns' !! n = core_binding env n) ->
            forall (all : list string) b n, n ∈ core_all ->
              is_Some ((<["__all__" := VList all]> (<[FLAG := VBool b]> ns')) !! n)).
  { intros ns' Hb all b n Hn. destruct (core_not_special n Hn) as [H1 H2].
    rewrite !lookup_insert_ne by done. by apply Hb. }
  destruct (optional_error env) as [e|] eqn:Hoe.
  - destruct (is_ImportError e); [|destruct Hc as (? & Hc); congruence].
    destruct Hc as (ns' & Hc & Hb). rewrite Hc in Hrun. injection Hrun as <-.
    unfold exports. rewrite lookup_insert_eq. split_and!; [done| |done..].
    intros n Hn. by apply Hcore_bound.
  - destruct Hc as (ns' & Hc & Hb).
    assert (HnsA : ns = <["__all__" := VList (core_all ++ multi_all)]>
                          (<[FLAG := VBool true]> ns')) by congruence.
    assert (Hexp : exports ns = core_all ++ multi_all).
    { rewrite HnsA. unfold exports. by rewrite lookup_insert_eq. }
    rewrite Hexp. split_and!; [done| |done..].
    intros n [Hn|Hn]%elem_of_app; [rewrite HnsA; by apply Hcore_bound|].
    destruct (import_package_optional env Hcore) as [ns1 Hopt].
    unfold optional_error in Hoe.
    pose proof (import_from_spec env ".multi_collection" multi_collection_names ns1) as H1.
    destruct (import_error env ".multi_collection" _); [done|].
    destruct H1 as (a1 & _ & Hp1 & H1). rewrite H1 in Hopt.
    set (ns2 := bound a1 multi_collection_names _) in *.
    pose proof (import_from_spec env ".adapters" adapters_names ns2) as H2.
    rewrite Hoe in H2. destruct H2 as (a2 & _ & Hp2 & H2). rewrite H2 in Hopt.
    set (ns3 := bound a2 adapters_names _) in *.
    assert (HnsB : ns = <["__all__" := VList (core_all ++ multi_all)]>
                          (<[FLAG := VBool true]> ns3)) by congruence.
    rewrite HnsB.
    assert (Hne : n <> "__all__" /\ n <> FLAG).
    { revert Hn. unfold multi_all, FLAG. rewrite !elem_of_cons, elem_of_nil. naive_solver. }
    destruct Hne as [Hne1 Hne2]. rewrite !lookup_insert_ne by done.
    destruct (decide (n ∈ adapters_names)) as [Had|Had].
    + unfold ns3. rewrite bound_lookup by done. by eapply present_is_Some.
    + assert (Hmc : n ∈ multi_collection_names /\ n <> submodule ".adapters").
      { revert Hn Had. unfold multi_all, adapters_names, multi_collection_names. cbn.
        rewrite !elem_of_cons, !elem_of_nil. naive_solver. }
      destruct Hmc as [Hmc Hsub].
      rewrite (import_from_frame _ _ _ _ _ _ n H2 Had Hsub (multi_reserved n Hn)).
      unfold ns2. rewrite bound_lookup by done. by eapply present_is_Some.
Qed.

Lemma exported_names_are_bound_witness :
  NoDup (exports (import_package env_full).1) /\
  (forall n, n ∈ exports (import_package env_full).1 ->
             is_Some ((import_package env_full).1 !! n)) /\
  (FLAG ∉ exports (import_package env_full).1) /\
  ("__all__" ∉ exports (import_package env_full).1).
Proof.
  apply (exported_names_are_bound env_full).
  rewrite (surjective_pairing (import_package env_full)) at 1.
  f_equal; by vm_compute.
Defined.

(** X4.  When [.multi_collection] imports and [.adapters] then fails with an
    [ImportError], the package still imports with the flag false; the three
    names taken from [.multi_collection] and the submodule itself stay bound
    in the package namespace, but none of them is listed in [__all__]. *)
Theorem half_imported_names_stay_bound (env : ImportEnv) (e : PyExc) :
  core_ok env = true ->
  import_error env ".multi_collection" multi_collection_names = None ->
  import_error env ".adapters" adapters_names = Some e ->
  is_ImportError e = true ->
  exists ns attrs,
    import_package env = (ns, inr tt) /\
    env !! ".multi_collection" = Some (Loaded attrs) /\
    ns !! FLAG = Some (VBool false) /\
    exports ns = core_all /\
    ns !! "multi_collection" = Some (VModule ".multi_collection") /\
    forall n, n ∈ multi_collection_names ->
      is_Some (ns !! n) /\ ns !! n = attrs !! n /\ (n ∉ exports ns).
Proof.
  intros Hcore Hmc Had He.
  destruct (import_package_optional env Hcore) as [ns1 Hopt].
  pose proof (import_from_spec env ".multi_collection" multi_collection_names ns1) as H1.
  rewrite Hmc in H1. destruct H1 as (a1 & Henv & Hp1 & H1). rewrite H1 in Hopt.
  set (ns2 := bound a1 multi_collection_names _) in *.
  pose proof (import_from_spec env ".adapters" adapters_names ns2) as H2.
  rewrite Had in H2. destruct H2 as (ns3 & H2). rewrite H2, He in Hopt.
  eexists _, a1. split; [exact Hopt|]. split; [done|].
  assert (Hexp : exports (<["__all__" := VList core_all]> (<[FLAG := VBool false]> ns3))
                 = core_all).
  { unfold exports. by rewrite lookup_insert_eq. }
  rewrite Hexp. split_and!; [|done| |].
  - rewrite lookup_insert_ne by done. apply lookup_insert_eq.
  - rewrite !lookup_insert_ne by done.
    eapply (kept_module env [".adapters"] ns2); [done| |].
    + unfold ns2. rewrite bound_frame; [apply lookup_insert_eq|done|].
      apply (bool_decide_unpack _). by vm_compute.
    + eapply import_from_kept; [exact H2| |done].
      apply (bool_decide_unpack _). by vm_compute.
  - intros n Hn.
    assert (Hne : n <> "__all__" /\ n <> FLAG /\ (n ∉ adapters_names) /\
                  n <> submodule ".adapters" /\ (n ∉ core_all) /\ n ∈ reserved).
    { revert Hn. unfold multi_collection_names. rewrite !elem_of_cons, elem_of_nil.
      intros Hn. repeat (destruct Hn as [->|Hn]); [..|done];
        (split_and!; [done|done| |done| |]; apply (bool_decide_unpack _); by vm_compute). }
    destruct Hne as (Hn1 & Hn2 & Hn3 & Hn4 & Hn5 & Hn6).
    rewrite !lookup_insert_ne by done.
    rewrite (import_from_frame _ _ _ _ _ _ n H2 Hn3 Hn4 Hn6).
    unfold ns2. rewrite bound_lookup by done.
    split_and!; [by eapply present_is_Some|done..].
Qed.

Lemma half_imported_names_stay_bound_witness :
  exists ns attrs,
    import_package env_half_optional = (ns, inr tt) /\
    env_half_optional !! ".multi_collection" = Some (Loaded attrs) /\
    ns !! FLAG = Some (VBool false) /\
    exports ns = core_all /\
    ns !! "multi_collection" = Some (VModule ".multi_collection") /\
    forall n, n ∈ multi_collection_names ->
      is_Some (ns !! n) /\ ns !! n = attrs !! n /\ (n ∉ exports ns).
Proof.
  apply (half_imported_names_stay_bound env_half_optional ModuleNotFoundError);
    by vm_compute.
Defined.

(** X13.  Whether it succeeds or fails, the module body binds only the
    names it lists and the sibling modules that the imported modules load:
    a name that is neither imported, nor a submodule named in an import, nor
    the flag, nor [__all__], either has the binding it had before the
    imports or is the name of a sibling that one of the imported modules
    loaded, bound to that module.  Sibling modules are taken to touch the
    package namespace only by importing siblings. *)
Theorem import_binds_only_listed_names (env : ImportEnv) (ns : Namespace)
    (r : PyExc + unit) (n : string) :
  import_package env = (ns, r) ->
  untouched n -> n <> FLAG -> n <> "__all__" ->
  ns !! n = ns_before_imports !! n \/
  (ns !! n = Some (VModule ("." +:+ n)) /\ loaded_by env imported_modules n).
Proof.
  intros Hrun (H1 & H2 & H3 & H4) Hf Ha. rewrite import_package_unfold in Hrun.
  change (kept_or_loaded env imported_modules ns_before_imports ns n).
  assert (Hl : forall m, m ∈ map fst core_imports -> m ∈ imported_modules).
  { intros m Hm. apply elem_of_app. by left. }
  assert (Hr : forall m, m ∈ [".multi_collection"; ".adapters"] -> m ∈ imported_modules).
  { intros m Hm. apply elem_of_app. by right. }
  destruct (run_imports env core_imports ns_before_imports) as [ns1 [e|[]]] eqn:Hcore;
    pose proof (kept_mono _ _ _ _ _ _ Hl (run_imports_kept _ _ _ _ _ n Hcore H1 H2)) as K1.
  - by injection Hrun as <- <-.
  - destruct (optional_import env ns1) as [ns2 [e|[]]] eqn:Hopt;
      pose proof (kept_mono _ _ _ _ _ _ Hr
                    (optional_import_kept _ _ _ _ n Hopt H3 H4 Hf)) as K2.
    + injection Hrun as <- <-. by eapply kept_trans.
    + eapply kept_trans; [by eapply kept_trans|].
      left. by eapply finish_all_frame.
Qed.

Lemma import_binds_only_listed_names_witness :
  (import_package env_entangled).1 !! "tokens" = ns_before_imports !! "tokens" \/
  ((import_package env_entangled).1 !! "tokens" = Some (VModule ("." +:+ "tokens")) /\
   loaded_by env_entangled imported_modules "tokens").
Proof.
  apply (import_binds_only_listed_names env_entangled _ (import_package env_entangled).2).
  - apply surjective_pairing.
  - unfold untouched. split_and!; apply (bool_decide_unpack _); by vm_compute.
  - done.
  - done.
Defined.

(** X14.  After a successful import every submodule named in an
    unconditional [from .m import ...] is bound in the package namespace to
    its module, and none of these submodule names is listed in [__all__]. *)
Theorem core_submodules_bound_not_exported (env : ImportEnv) (ns : Namespace) :
  import_package env = (ns, inr tt) ->
  forall m names, (m, names) ∈ core_imports ->
    ns !! submodule m = Some (VModule m) /\ (submodule m ∉ exports ns).
Proof.
  intros Hrun m names Hin.
  assert (Hall : Forall (fun mn : string * list string =>
                   (submodule mn.1 ∉ multi_all) /\ (submodule mn.1 ∉ optional_submodules) /\
                   submodule mn.1 <> FLAG /\ submodule mn.1 <> "__all__" /\
                   (submodule mn.1 ∉ core_all) /\ (submodule mn.1 ∉ core_all ++ multi_all))
                 core_imports).
  { apply (bool_decide_unpack _). by vm_compute. }
  rewrite Forall_forall in Hall.
  destruct (Hall _ Hin) as (Hm1 & Hm2 & Hm3 & Hm4 & Hm5 & Hm6). cbn [fst] in *.
  split; [|by destruct (exports_cases env ns Hrun) as [-> | ->]].
  rewrite import_package_unfold in Hrun.
  destruct (run_imports env core_imports ns_before_imports) as [ns1 [e|[]]] eqn:Hcore;
    [done|].
  destruct (optional_import env ns1) as [ns2 [e|[]]] eqn:Hopt; [done|].
  rewrite (finish_all_frame _ _ _ _ Hrun Hm4).
  assert (Hshape : Forall (fun mn : string * list string => mn.1 = "." +:+ submodule mn.1)
                     core_imports).
  { apply (bool_decide_unpack _). by vm_compute. }
  eapply kept_module; [|eapply run_imports_submodule; [| |exact Hshape|exact Hcore|exact Hin]
                       |exact (optional_import_kept _ _ _ _ _ Hopt Hm1 Hm2 Hm3)].
  - rewrite Forall_forall in Hshape. exact (Hshape _ Hin).
  - apply (bool_decide_unpack _). by vm_compute.
  - apply Forall_forall. apply (bool_decide_unpack _). by vm_compute.
Qed.

Lemma core_submodules_bound_not_exported_witness :
  (import_package env_full).1 !! submodule ".parser" = Some (VModule ".parser") /\
  (submodule ".parser" ∉ exports (import_package env_full).1).
Proof.
  apply (core_submodules_bound_not_exported env_full (import_package env_full).1
           ltac:(rewrite (surjective_pairing (import_package env_full)) at 1;
                 f_equal; by vm_compute)
           ".parser" ["parse"]).
  unfold core_imports. find_member.
Defined.

(** X15.  The optional import statements are not reached before the
    unconditional ones went through: when one of those fails, the package
    import fails and none of the six multi-collection names is bound; an
    optional submodule is bound then only if one of the modules imported
    unconditionally loaded it on its own, and it is bound to that module.
    Sibling modules are taken to touch the package namespace only by
    importing siblings. *)
Theorem optional_names_wait_for_core (env : ImportEnv) (ns : Namespace)
    (r : PyExc + unit) :
  core_ok env = false ->
  import_package env = (ns, r) ->
  (exists e, r = inl e) /\
  (forall n, n ∈ multi_all -> ns !! n = None) /\
  (forall n, n ∈ optional_submodules ->
     ns !! n = None \/
     (ns !! n = Some (VModule ("." +:+ n)) /\
      loaded_by env (map fst core_imports) n /\
      is_loaded env ("." +:+ n) = true)).
Proof.
  intros Hcore Hrun. rewrite import_package_unfold in Hrun.
  destruct (run_imports_fail env core_imports ns_before_imports Hcore) as (ns1 & e & Hr).
  rewrite Hr in Hrun. injection Hrun as <- <-. split_and!; [by exists e|..].
  - intros n Hn.
    assert (Hall : Forall (fun n : string =>
                     (n ∉ concat (map snd core_imports)) /\
                     (n ∉ map (fun mn : string * list string => submodule mn.1) core_imports) /\
                     n <> "annotations" /\ n <> "__doc__") multi_all).
    { apply (bool_decide_unpack _). by vm_compute. }
    rewrite Forall_forall in Hall. destruct (Hall _ Hn) as (H1 & H2 & H3 & H4).
    rewrite (run_imports_frame _ _ _ _ _ n Hr H1 H2 (multi_reserved n Hn)).
    unfold ns_before_imports. by rewrite !lookup_insert_ne.
  - intros n Hn.
    assert (Hall : Forall (fun n : string =>
                     (n ∉ concat (map snd core_imports)) /\
                     (n ∉ map (fun mn : string * list string => submodule mn.1) core_imports) /\
                     n <> "annotations" /\ n <> "__doc__") optional_submodules).
    { apply (bool_decide_unpack _). by vm_compute. }
    rewrite Forall_forall in Hall. destruct (Hall _ Hn) as (H1 & H2 & H3 & H4).
    destruct (run_imports_kept _ _ _ _ _ n Hr H1 H2) as [K|[K L]].
    + left. rewrite K. unfold ns_before_imports. by rewrite !lookup_insert_ne.
    + right. split_and!; [done..|].
      destruct L as (m & _ & Hl). by eapply loaded_siblings_loaded.
Qed.

Lemma optional_names_wait_for_core_witness :
  (exists e, (import_package env_entangled).2 = inl e) /\
  (forall n, n ∈ multi_all -> (import_package env_entangled).1 !! n = None) /\
  (forall n, n ∈ optional_submodules ->
     (import_package env_entangled).1 !! n = None \/
     ((import_package env_entangled).1 !! n = Some (VModule ("." +:+ n)) /\
      loaded_by env_entangled (map fst core_imports) n /\
      is_loaded env_entangled ("." +:+ n) = true)).
Proof.
  apply (optional_names_wait_for_core env_entangled).
  - by vm_compute.
  - apply surjective_pairing.
Defined.

(** [.parser] loads [.tokens] and [.planner] loads [.adapters] before it
    raises: the package import fails with that exception, and both siblings
    are left bound in the package namespace. *)
Example entangled_siblings_stay_bound :
  (import_package env_entangled).2 = inl (OtherError "RuntimeError") /\
  (import_package env_entangled).1 !! "tokens" = Some (VModule ".tokens") /\
  (import_package env_entangled).1 !! "adapters" = Some (VModule ".adapters") /\
  (import_package env_entangled).1 !! "multi_collection" = None /\
  (import_package env_entangled).1 !! "planner" = None.
Proof. split_and!; by vm_compute. Qed.

End ImportOutcomeTheorems.

(* ===================================================================== *)
(** * Further facts about the documentation macro                         *)
(* ===================================================================== *)

Section PathShapeFacts.
Import DocsMacro PathShape.

(** Without [..] a walk only descends: it enters one entry per component. *)
Lemma walk_descends (rootn : Node) (trail : list (string * Node))
    (comps : list string) (trail' : list (string * Node)) :
  walk rootn trail comps = inr trail' -> (".." ∉ comps) ->
  exists k, trail' = k ++ trail /\ rev (map fst k) = comps.
Proof.
  revert trail. induction comps as [|c rest IH]; intros trail Hw Hdd.
  - cbn in Hw. injection Hw as <-. by exists [].
  - apply not_elem_of_cons in Hdd as [Hc Hrest]. cbn [walk] in Hw.
    destruct (current rootn trail) as [|entries]; [done|].
    destruct (String.eqb_spec c "..") as [->|_]; [done|].
    destruct ((NAME_MAX <? String.length c)%nat); [done|].
    destruct (lookup_entry c entries) as [n|]; [|done].
    destruct (IH _ Hw Hrest) as (k & -> & Hk).
    exists (k ++ [(c, n)]). split; [by rewrite <- app_assoc|].
    rewrite map_app, rev_app_distr. cbn. by rewrite Hk.
Qed.

Lemma is_absolute_truediv (p : Path) (key : string) :
  is_absolute (truediv p key) = is_absolute (parse key) || is_absolute p.
Proof.
  unfold truediv. by destruct (is_absolute (parse key)) eqn:Hk.
Qed.

Lemma components_truediv_relative (fs : FileSystem) (p : Path) (key : string) :
  is_absolute (parse key) = false ->
  components fs (truediv p key) = components fs p ++ parts (parse key).
Proof.
  intros Hk. rewrite truediv_relative by done. unfold components.
  change (is_absolute {| root := root p; parts := parts p ++ parts (parse key) |})
    with (is_absolute p).
  cbn [parts]. by rewrite app_assoc.
Qed.

Lemma locate_descends (fs : FileSystem) (p : Path) (key : string)
    (d loc : list string) (nd n : Node) :
  is_absolute (parse key) = false -> (".." ∉ parts (parse key)) ->
  locate fs p = inr (d, nd) ->
  locate fs (truediv p key) = inr (loc, n) ->
  loc = d ++ parts (parse key).
Proof.
  intros Hk Hdd Hp Hj. unfold locate in Hp, Hj.
  destruct (existsb has_nul (parts p)); [done|].
  destruct (existsb has_nul (parts (truediv p key))); [done|].
  destruct (PATH_MAX <=? String.length (as_text p))%nat; [done|].
  destruct (PATH_MAX <=? String.length (as_text (truediv p key)))%nat; [done|].
  rewrite components_truediv_relative, walk_app in Hj by done.
  destruct (walk (fs_root fs) [] (components fs p)) as [e|trail]; [done|].
  injection Hp as <- _.
  destruct (walk (fs_root fs) trail (parts (parse key))) as [e|trail'] eqn:Hw; [done|].
  injection Hj as <- _.
  destruct (walk_descends _ _ _ _ Hw Hdd) as (k & -> & Hk').
  by rewrite map_app, rev_app_distr, Hk'.
Qed.

(** [\r] never survives newline translation. *)
Lemma universal_newlines_LF (rest : list N) :
  universal_newlines (LF :: rest) = LF :: universal_newlines rest.
Proof. reflexivity. Qed.

Lemma universal_newlines_CR_free (cps : list N) : CR ∉ universal_newlines cps.
Proof.
  induction cps as [|c rest IH]; [apply not_elem_of_nil|].
  cbn [universal_newlines]. destruct (N.eqb_spec c CR) as [->|Hc].
  - apply not_elem_of_cons. split; [done|].
    destruct rest as [|c' rest']; [apply not_elem_of_nil|].
    destruct (N.eqb_spec c' LF) as [->|_]; [|done].
    rewrite universal_newlines_LF in IH. by apply not_elem_of_cons in IH as [_ ?].
  - apply not_elem_of_cons. split; [congruence|done].
Qed.

Lemma universal_newlines_Forall (P : N -> Prop) (cps : list N) :
  P LF -> Forall P cps -> Forall P (universal_newlines cps).
Proof.
  intros HLF. induction cps as [|c rest IH]; intros Hall; [constructor|].
  apply Forall_cons in Hall as [Hc Hrest]. specialize (IH Hrest).
  cbn [universal_newlines]. destruct (N.eqb_spec c CR) as [->|_].
  - constructor; [done|].
    destruct rest as [|c' rest']; [constructor|].
    destruct (N.eqb_spec c' LF) as [->|_]; [|done].
    rewrite universal_newlines_LF in IH. by apply Forall_cons in IH as [_ ?].
  - by constructor.
Qed.

Lemma read_file_text (module_file : string) (fs : FileSystem) (relative_path : string)
    (text : list N) :
  read_file module_file fs relative_path = inr text ->
  exists content cps,
    read_bytes fs (truediv (DOCS_ROOT module_file) relative_path) = inr content /\
    decode content = Some cps /\ text = universal_newlines cps.
Proof.
  unfold read_file, read_text. cbv zeta.
  destruct (read_bytes fs _) as [e|content]; [done|].
  destruct (decode content) as [cps|] eqn:Hd; [|done].
  intros [= <-]. by exists content, cps.
Qed.

(** Masks and shifts of the decoder as arithmetic. *)
Lemma land_low (b : N) (k : N) : N.land b (N.ones k) = (b mod 2 ^ k)%N.
Proof. apply N.land_ones. Qed.

Lemma low6_mod (b : N) : low6 b = (b mod 64)%N.
Proof. exact (land_low b 6). Qed.

Lemma land_1F (b : N) : N.land b 0x1F = (b mod 32)%N.
Proof. exact (land_low b 5). Qed.

Lemma land_0F (b : N) : N.land b 0x0F = (b mod 16)%N.
Proof. exact (land_low b 4). Qed.

Lemma land_07 (b : N) : N.land b 0x07 = (b mod 8)%N.
Proof. exact (land_low b 3). Qed.

Lemma in_range_spec (lo hi b : N) :
  in_range lo hi b = true <-> (lo <= b <= hi)%N.
Proof. unfold in_range. rewrite andb_true_iff, !N.leb_le. done. Qed.

Lemma is_cont_spec (b : N) : is_cont b = true <-> (0x80 <= b <= 0xBF)%N.
Proof. apply (in_range_spec 0x80 0xBF). Qed.

Ltac decoder_arith :=
  unfold scalar_value;
  rewrite ?low6_mod, ?land_1F, ?land_0F, ?land_07, ?N.shiftl_mul_pow2;
  change (2 ^ 6)%N with 64%N; change (2 ^ 12)%N with 4096%N;
  change (2 ^ 18)%N with 262144%N;
  repeat match goal with
         | H : in_range _ _ _ = true |- _ => apply in_range_spec in H
         | H : is_cont _ = true |- _ => apply is_cont_spec in H
         | H : _ && _ = true |- _ => apply andb_true_iff in H; destruct H
         end;
  zify; Z.to_euclidean_division_equations; lia.

(** Whatever the strict decoder accepts is a sequence of scalar values. *)
Lemma utf8_decode_scalar (bs cps : list N) :
  utf8_decode bs = Some cps -> Forall scalar_value cps.
Proof.
  revert cps. induction bs as [bs IH] using (induction_ltof1 _ (@length N)).
  unfold ltof in IH. intros cps H.
  destruct bs as [|b0 r0]; [injection H as <-; constructor|].
  cbn [utf8_decode] in H. destruct (N.ltb_spec b0 0x80) as [Hlt|Hge].
  { destruct (utf8_decode r0) as [t|] eqn:Hr; [|done]. injection H as <-.
    constructor; [unfold scalar_value; lia|]. apply (IH r0); [cbn; lia|done]. }
  destruct (in_range 0xC2 0xDF b0) eqn:H2.
  { destruct r0 as [|b1 r1]; [done|]. destruct (is_cont b1) eqn:Hc1; [|done].
    destruct (utf8_decode r1) as [t|] eqn:Hr; [|done]. injection H as <-.
    constructor; [decoder_arith|]. apply (IH r1); [cbn; lia|done]. }
  destruct (in_range 0xE0 0xEF b0) eqn:H3.
  { destruct r0 as [|b1 [|b2 r2]]; [done..|].
    destruct (_ && is_cont b2) eqn:Hc; [|done].
    destruct (utf8_decode r2) as [t|] eqn:Hr; [|done]. injection H as <-.
    constructor; [|apply (IH r2); [cbn; lia|done]].
    destruct (N.eqb_spec b0 0xE0) as [->|?]; [decoder_arith|].
    destruct (N.eqb_spec b0 0xED) as [->|?]; decoder_arith. }
  destruct (in_range 0xF0 0xF4 b0) eqn:H4; [|done].
  destruct r0 as [|b1 [|b2 [|b3 r3]]]; [done..|].
  destruct (_ && is_cont b3) eqn:Hc; [|done].
  destruct (utf8_decode r3) as [t|] eqn:Hr; [|done]. injection H as <-.
  constructor; [|apply (IH r3); [cbn; lia|done]].
  destruct (N.eqb_spec b0 0xF0) as [->|?]; [decoder_arith|].
  destruct (N.eqb_spec b0 0xF4) as [->|?]; decoder_arith.
Qed.

(** Bytes below [0x80] decode to themselves. *)
Lemma utf8_decode_ascii (bs : list N) :
  Forall (fun b => (b < 0x80)%N) bs -> utf8_decode bs = Some bs.
Proof.
  induction 1 as [|b r Hb _ IH]; [done|].
  cbn [utf8_decode]. destruct (N.ltb_spec b 0x80); [|lia]. by rewrite IH.
Qed.

(** A NUL byte of the string is a NUL byte of one of its segments, and of
    one of the segments that are kept. *)
Lemma has_nul_segments (s : string) : existsb has_nul (segments s) = has_nul s.
Proof.
  induction s as [|c rest IH]; [done|].
  cbn [segments has_nul]. unfold is_slash.
  destruct (Ascii.eqb_spec c "/"%char) as [->|_]; [by cbn; rewrite IH|].
  destruct (segments rest) as [|seg more]; cbn in *; rewrite <- IH;
    by rewrite ?orb_false_r, ?orb_assoc.
Qed.

Lemma has_nul_kept (l : list string) :
  existsb has_nul (List.filter keep_segment l) = existsb has_nul l.
Proof.
  induction l as [|seg l IH]; [done|]. cbn [List.filter existsb].
  unfold keep_segment at 1.
  destruct (String.eqb_spec seg "") as [->|_]; [done|].
  destruct (String.eqb_spec seg ".") as [->|_]; [done|].
  cbn. by rewrite IH.
Qed.

Lemma has_nul_parse (s : string) : existsb has_nul (parts (parse s)) = has_nul s.
Proof. unfold parse. cbn [parts]. by rewrite has_nul_kept, has_nul_segments. Qed.

Lemma parts_truediv (p : Path) (key : string) :
  exists before, parts (truediv p key) = before ++ parts (parse key).
Proof.
  unfold truediv. destruct (is_absolute (parse key)); [by exists []|by exists (parts p)].
Qed.

(** A name without a slash is one segment. *)
Lemma segments_plain (s : string) : has_slash s = false -> segments s = [s].
Proof.
  induction s as [|c rest IH]; [done|]. cbn [has_slash segments].
  intros [Hc Hrest]%orb_false_elim. rewrite Hc, (IH Hrest). done.
Qed.

Lemma leading_slashes_plain (s : string) : has_slash s = false -> leading_slashes s = 0.
Proof.
  destruct s as [|c rest]; [done|]. cbn [has_slash leading_slashes].
  by intros [-> _]%orb_false_elim.
Qed.

Lemma parse_plain (s : string) :
  plain_name s = true -> parse s = {| root := NoRoot; parts := [s] |}.
Proof.
  unfold plain_name. intros [[Hs Hk]%andb_prop _]%andb_prop.
  apply negb_true_iff in Hs.
  unfold parse, parse_root. rewrite leading_slashes_plain, segments_plain by done.
  cbn [List.filter]. by rewrite Hk.
Qed.

(** An absolute path is located without looking at the working directory. *)
Lemma locate_absolute (r : Node) (cwd1 cwd2 : list string) (p : Path) :
  is_absolute p = true ->
  locate {| fs_root := r; fs_cwd := cwd1 |} p = locate {| fs_root := r; fs_cwd := cwd2 |} p.
Proof. intros Hp. unfold locate, components. by rewrite Hp. Qed.

End PathShapeFacts.

Section ReadFileTheorems.
Import DocsMacro PathShape.

(** X5.  In a tree without links, a relative [relative_path] that has no
    [..] component is read below the docs directory: the file read sits at
    the location of the docs directory followed by the components of
    [relative_path]. *)
Theorem read_file_stays_below_docs (module_file : string) (fs : FileSystem)
    (relative_path : string) (d loc : list string) (text : list N) :
  is_absolute (parse relative_path) = false ->
  (".." ∉ parts (parse relative_path)) ->
  docs_dir module_file fs d ->
  reads module_file fs relative_path loc text ->
  loc = d ++ parts (parse relative_path) /\ d `prefix_of` loc.
Proof.
  intros Hrel Hdd [entries Hd] [[content Hl] _].
  assert (Hloc : loc = d ++ parts (parse relative_path))
    by (by eapply locate_descends).
  split; [done|]. rewrite Hloc. by apply prefix_app_r.
Qed.

Lemma read_file_stays_below_docs_witness :
  ["site"; "docs"; "plain.md"] = ["site"; "docs"] ++ parts (parse "plain.md") /\
  ["site"; "docs"] `prefix_of` ["site"; "docs"; "plain.md"].
Proof.
  apply (read_file_stays_below_docs sample_file sample_fs "plain.md"
           ["site"; "docs"] ["site"; "docs"; "plain.md"] [112; 108; 97; 105; 110]%N).
  - reflexivity.
  - apply (bool_decide_unpack _). by vm_compute.
  - eexists. by vm_compute.
  - split; [eexists|]; by vm_compute.
Defined.

(** X6.  The text [read_file] returns holds no carriage return, whatever the
    file holds. *)
Theorem read_file_returns_no_CR (module_file : string) (fs : FileSystem)
    (relative_path : string) (text : list N) :
  read_file module_file fs relative_path = inr text -> CR ∉ text.
Proof.
  intros (content & cps & _ & _ & ->)%read_file_text.
  apply universal_newlines_CR_free.
Qed.

Lemma read_file_returns_no_CR_witness :
  CR ∉ [72; 105; 10; 116; 104; 101; 114; 101]%N.
Proof.
  apply (read_file_returns_no_CR sample_file sample_fs "intro.md").
  by vm_compute.
Defined.

(** X7.  Every code point of the text [read_file] returns is a Unicode
    scalar value: at most U+10FFFF and not a surrogate. *)
Theorem read_file_returns_scalar_values (module_file : string) (fs : FileSystem)
    (relative_path : string) (text : list N) :
  read_file module_file fs relative_path = inr text -> Forall scalar_value text.
Proof.
  intros (content & cps & _ & Hd & ->)%read_file_text.
  apply universal_newlines_Forall.
  - unfold scalar_value, LF. lia.
  - by eapply utf8_decode_scalar.
Qed.

Lemma read_file_returns_scalar_values_witness :
  Forall scalar_value [112; 108; 97; 105; 110]%N.
Proof.
  apply (read_file_returns_scalar_values sample_file sample_fs "plain.md").
  by vm_compute.
Defined.

(** X8.  A file whose bytes are all below [0x80] and none of which is a
    carriage return is returned byte for byte. *)
Theorem read_file_ascii_verbatim (module_file : string) (fs : FileSystem)
    (relative_path : string) (content : list Byte.byte) :
  read_bytes fs (truediv (DOCS_ROOT module_file) relative_path) = inr content ->
  Forall (fun b => (Byte.to_N b < 0x80)%N /\ Byte.to_N b <> CR) content ->
  read_file module_file fs relative_path = inr (map Byte.to_N content).
Proof.
  intros Hb Hall. unfold read_file, read_text. cbv zeta. rewrite Hb.
  unfold decode. rewrite utf8_decode_ascii.
  - rewrite universal_newlines_no_CR; [done|].
    intros (b & Hcr & Hin)%list_elem_of_fmap.
    rewrite Forall_forall in Hall. by destruct (Hall b Hin).
  - apply Forall_fmap. eapply Forall_impl; [exact Hall|]. by intros b [? _].
Qed.

Lemma read_file_ascii_verbatim_witness :
  read_file sample_file sample_fs "plain.md" = inr (map Byte.to_N (bytes_of "plain")).
Proof.
  apply (read_file_ascii_verbatim sample_file sample_fs "plain.md").
  - by vm_compute.
  - apply (bool_decide_unpack _). by vm_compute.
Defined.

(** X9.  A relative [relative_path] with no component left after parsing
    (the empty string, [.], [./]) names the docs directory itself, and
    reading it raises [IsADirectoryError]. *)
Theorem read_file_of_docs_dir_itself (module_file : string) (fs : FileSystem)
    (relative_path : string) (d : list string) :
  is_absolute (parse relative_path) = false ->
  parts (parse relative_path) = [] ->
  docs_dir module_file fs d ->
  truediv (DOCS_ROOT module_file) relative_path = DOCS_ROOT module_file /\
  read_file module_file fs relative_path = inl IsADirectoryError.
Proof.
  intros Hrel Hparts [entries Hd].
  assert (Hj : truediv (DOCS_ROOT module_file) relative_path = DOCS_ROOT module_file).
  { rewrite truediv_relative by done. rewrite Hparts, app_nil_r. done. }
  split; [done|]. unfold read_file, read_text, read_bytes. cbv zeta.
  by rewrite Hj, Hd.
Qed.

Lemma read_file_of_docs_dir_itself_witness :
  truediv (DOCS_ROOT sample_file) "./" = DOCS_ROOT sample_file /\
  read_file sample_file sample_fs "./" = inl IsADirectoryError.
Proof.
  apply (read_file_of_docs_dir_itself sample_file sample_fs "./" ["site"; "docs"]).
  - reflexivity.
  - reflexivity.
  - eexists. by vm_compute.
Defined.

(** X10.  A [relative_path] that holds a NUL character raises [ValueError],
    whatever the file system holds. *)
Theorem read_file_rejects_nul (module_file : string) (fs : FileSystem)
    (relative_path : string) :
  has_nul relative_path = true ->
  read_file module_file fs relative_path = inl ValueError.
Proof.
  intros Hnul. unfold read_file, read_text, read_bytes, locate. cbv zeta.
  destruct (parts_truediv (DOCS_ROOT module_file) relative_path) as [before ->].
  by rewrite existsb_app, has_nul_parse, Hnul, orb_true_r.
Qed.

Lemma read_file_rejects_nul_witness :
  read_file sample_file sample_fs (String "a"%char (String zero "b")) = inl ValueError.
Proof.
  apply (read_file_rejects_nul sample_file sample_fs). reflexivity.
Defined.

(** X11.  In a tree without links that the process may read throughout,
    for a single file name (no slash, not empty, neither [.] nor [..], no
    NUL), where the docs directory is a directory, [read_file] raises
    [OSError] (file name too long) when the joined path has [PATH_MAX] bytes
    or more or the name more than [NAME_MAX]; otherwise it is decided by the
    entry of that name in the docs directory: no entry raises
    [FileNotFoundError], a directory raises [IsADirectoryError], a file gives
    its decoded text. *)
Theorem read_file_plain_name (module_file : string) (fs : FileSystem)
    (name : string) (d : list string) (entries : list (string * Node)) :
  plain_name name = true ->
  has_nul name = false ->
  locate fs (DOCS_ROOT module_file) = inr (d, Dir entries) ->
  read_file module_file fs name =
    if (PATH_MAX <=? String.length (as_text (truediv (DOCS_ROOT module_file) name)))%nat
       || (NAME_MAX <? String.length name)%nat
    then inl OSError_ENAMETOOLONG
    else match lookup_entry name entries with
         | None => inl FileNotFoundError
         | Some (File content) => text_of content
         | Some (Dir _) => inl IsADirectoryError
         end.
Proof.
  intros Hplain Hnul Hd. pose proof (parse_plain name Hplain) as Hparse.
  assert (Hrel : is_absolute (parse name) = false) by by rewrite Hparse.
  assert (Hdd : String.eqb name ".." = false).
  { unfold plain_name in Hplain. apply andb_prop in Hplain as [_ H].
    by apply negb_true_iff in H. }
  assert (Hparts : parts (truediv (DOCS_ROOT module_file) name)
                   = parts (DOCS_ROOT module_file) ++ [name]).
  { rewrite truediv_relative by done. cbn [parts]. by rewrite Hparse. }
  unfold read_file, read_text, read_bytes, locate in *. cbv zeta.
  rewrite components_truediv_relative, walk_app by done.
  rewrite Hparts, Hparse, existsb_app. cbn [existsb parts].
  rewrite Hnul, !orb_false_r.
  destruct (existsb has_nul (parts (DOCS_ROOT module_file))); [done|].
  destruct (PATH_MAX <=? String.length (as_text (DOCS_ROOT module_file)))%nat; [done|].
  destruct (PATH_MAX <=? String.length (as_text (truediv (DOCS_ROOT module_file) name)))%nat;
    [done|]. cbn [orb].
  destruct (walk (fs_root fs) [] (components fs (DOCS_ROOT module_file)))
    as [e|trail]; [done|].
  injection Hd as _ Hcur. cbn [walk]. rewrite Hcur, Hdd.
  destruct (NAME_MAX <? String.length name)%nat; [done|].
  destruct (lookup_entry name entries) as [[content|sub]|]; done.
Qed.

Lemma read_file_plain_name_witness :
  read_file sample_file sample_fs "intro.md" =
    if (PATH_MAX <=? String.length (as_text (truediv (DOCS_ROOT sample_file) "intro.md")))%nat
       || (NAME_MAX <? String.length "intro.md")%nat
    then inl OSError_ENAMETOOLONG
    else match lookup_entry "intro.md"
                 [("main.py", File (bytes_of "# macros"));
                  ("intro.md",
                   File (bytes_of "Hi" ++ [Byte.x0d; Byte.x0a] ++ bytes_of "there"));
                  ("plain.md", File (bytes_of "plain"));
                  ("bad.md", File [Byte.x80])] with
         | None => inl FileNotFoundError
         | Some (File content) => text_of content
         | Some (Dir _) => inl IsADirectoryError
         end.
Proof.
  apply (read_file_plain_name sample_file sample_fs "intro.md" ["site"; "docs"]).
  - reflexivity.
  - reflexivity.
  - by vm_compute.
Defined.

(** X12.  When [__file__] is absolute, what [read_file] returns does not
    depend on the working directory. *)
Theorem read_file_ignores_cwd (module_file : string) (r : Node)
    (cwd1 cwd2 : list string) (relative_path : string) :
  is_absolute (parse module_file) = true ->
  read_file module_file {| fs_root := r; fs_cwd := cwd1 |} relative_path =
  read_file module_file {| fs_root := r; fs_cwd := cwd2 |} relative_path.
Proof.
  intros Habs. unfold read_file, read_text, read_bytes. cbv zeta.
  rewrite (locate_absolute r cwd1 cwd2); [done|].
  rewrite is_absolute_truediv. apply orb_true_iff. by right.
Qed.

Lemma read_file_ignores_cwd_witness :
  read_file sample_file {| fs_root := fs_root sample_fs; fs_cwd := ["site"] |} "plain.md" =
  read_file sample_file {| fs_root := fs_root sample_fs; fs_cwd := ["etc"] |} "plain.md".
Proof.
  apply (read_file_ignores_cwd sample_file). reflexivity.
Defined.

(** Beyond the system's limits the macro raises [OSError]: a name of 256
    bytes is refused by the directory, a path of 4096 bytes or more by the
    system as a whole, though the same path with fewer turns is read. *)
Example read_file_too_long :
  read_file sample_file sample_fs long_name = inl OSError_ENAMETOOLONG /\
  read_file sample_file sample_fs (winding_path 512) = inl OSError_ENAMETOOLONG /\
  read_file sample_file sample_fs (winding_path 3) = inr [112; 108; 97; 105; 110]%N.
Proof. split_and!; by vm_compute. Qed.

End ReadFileTheorems.
